(** * The AI-REA conversational assistant (frontend/src/components/Assistant.jsx)

    A shallow embedding of the assistant widget: the two route tables, the
    action dispatcher [executeUIActions], and the turn-taking controller
    ([send], [reset], the page-change effect) as a transition system over the
    component's React state.

    Conventions.
    - JavaScript values are the inductive [JSValue]: the JSON a backend can
      return, plus [JUndefined] and the members of [Object.prototype] that a
      lookup on an object literal can reach.  Numbers are the integers,
      printed in decimal.
    - A string is the sequence of its UTF-8 bytes; [trim] removes the white
      space and line terminators that [String.prototype.trim] removes, each
      by its encoding.
    - One event (a click, a key press, a settled promise, a location change)
      is one step: React commits the state updates of a handler and runs the
      pending effects before the next event is delivered, so every handler
      reads the committed state.
    - A call of [navigate] leaves a request with the router.  The render that
      follows the handler is the next step: the location becomes the requested
      one and the page effect runs if the page changed.  No other event is
      delivered in between ([enabled], [delivered]). *)

From Stdlib Require Import Ascii.
From stdpp Require Import base tactics option list strings gmap pretty.

(** ** JavaScript values *)

#[local] Unset Elimination Schemes.
Inductive JSValue : Type :=
| JUndefined
| JNull
| JBool (b : bool)
| JNum (n : Z)
| JStr (s : string)
| JArr (items : list JSValue)
| JObj (props : list (string * JSValue))
| JBuiltin (name : string).
#[local] Set Elimination Schemes.

(** The property names every object literal inherits from [Object.prototype].
    Each of them holds a function, except [__proto__], which holds the
    prototype object itself: all are truthy and none is a string. *)
Definition object_prototype_keys : list string :=
  [ "constructor"; "__defineGetter__"; "__defineSetter__"; "hasOwnProperty";
    "__lookupGetter__"; "__lookupSetter__"; "isPrototypeOf";
    "propertyIsEnumerable"; "toString"; "valueOf"; "__proto__";
    "toLocaleString" ].

Definition inherited (k : string) : JSValue :=
  if bool_decide (k ∈ object_prototype_keys) then JBuiltin k else JUndefined.

(** [ToBoolean]. *)
Definition truthy (v : JSValue) : bool :=
  match v with
  | JUndefined | JNull => false
  | JBool b => b
  | JNum n => negb (Z.eqb n 0)
  | JStr s => negb (String.eqb s "")
  | JArr _ | JObj _ | JBuiltin _ => true
  end.

(** [v === s] for a string [s]. *)
Definition strict_eq_str (v : JSValue) (s : string) : bool :=
  match v with
  | JStr s' => bool_decide (s' = s)
  | _ => false
  end.

(** [a || b]. *)
Definition js_or (a b : JSValue) : JSValue := if truthy a then a else b.

Inductive Exn : Type :=
| TypeError.

(** What a member of [Object.prototype] prints as: the prototype itself as
    an object, the others as native functions, of which [constructor] is the
    function [Object]. *)
Definition builtin_text (name : string) : string :=
  if bool_decide (name = "__proto__") then "[object Object]"
  else "function " +:+ (if bool_decide (name = "constructor") then "Object" else name)
         +:+ "() { [native code] }".

(** [ToString], as used by a computed property key [o[v]] and by a template
    literal.  An array joins its elements with a comma, printing [null] and
    [undefined] elements as the empty string.  An object is printed by its
    [toString] method: the inherited one gives ["[object Object]"]; an own
    property of that name, which in parsed JSON is never a function, leaves
    no method that yields a primitive, and the conversion throws. *)
Fixpoint to_string (v : JSValue) : Exn + string :=
  match v with
  | JUndefined => inr "undefined"
  | JNull => inr "null"
  | JBool true => inr "true"
  | JBool false => inr "false"
  | JNum n => inr (pretty n)
  | JStr s => inr s
  | JArr items =>
      (fix join (l : list JSValue) : Exn + string :=
         let elt x := match x with
                      | JUndefined | JNull => inr ""
                      | _ => to_string x
                      end in
         match l with
         | [] => inr ""
         | [x] => elt x
         | x :: rest =>
             match elt x with
             | inl e => inl e
             | inr s =>
                 match join rest with
                 | inl e => inl e
                 | inr r => inr (s +:+ "," +:+ r)
                 end
             end
         end) items
  | JObj props =>
      if bool_decide ("toString" ∈ props.*1) then inl TypeError
      else inr "[object Object]"
  | JBuiltin name => inr (builtin_text name)
  end.

(** Whether the conversion returns. *)
Definition stringifiable (v : JSValue) : bool :=
  if to_string v is inr _ then true else false.

(** [`${v}`] for a value on which the conversion returns. *)
Definition template (v : JSValue) : string :=
  match to_string v with
  | inr s => s
  | inl _ => ""
  end.

(** ** The route tables *)

Definition ROUTE_TO_PAGE : gmap string string :=
  list_to_map
    [ ("/", "home");
      ("/dashboard", "dashboard");
      ("/results", "results");
      ("/marketplace", "marketplace");
      ("/marketplace/sell", "marketplace_sell");
      ("/marketplace/buy", "marketplace_buy");
      ("/about", "about") ].

Definition PAGE_TO_ROUTE : gmap string string :=
  list_to_map
    [ ("home", "/");
      ("dashboard", "/dashboard");
      ("results", "/results");
      ("marketplace", "/marketplace");
      ("marketplace_sell", "/marketplace/sell");
      ("marketplace_buy", "/marketplace/buy");
      ("about", "/about") ].

(** The property [k] of an object literal whose own properties are [table]:
    the own property if there is one, else whatever [Object.prototype] has. *)
Definition member (table : gmap string string) (k : string) : JSValue :=
  match table !! k with
  | Some v => JStr v
  | None => inherited k
  end.

(** [table[key]]: the key is converted to a string first, which can throw. *)
Definition obj_get (table : gmap string string) (key : JSValue) : Exn + JSValue :=
  match to_string key with
  | inl e => inl e
  | inr k => inr (member table k)
  end.

(** [const page = ROUTE_TO_PAGE[loc.pathname] || "home"]: the key is a
    string already. *)
Definition resolve (pathname : string) : JSValue :=
  js_or (member ROUTE_TO_PAGE pathname) (JStr "home").

(** [PAGE_TO_ROUTE[page]]. *)
Definition route (page : JSValue) : Exn + JSValue := obj_get PAGE_TO_ROUTE page.

(** The closed enumeration of pages, and the name each one has in the code. *)
Inductive PageContext : Type :=
| home | dashboard | results | marketplace
| marketplace_sell | marketplace_buy | about.

Definition page_name (p : PageContext) : string :=
  match p with
  | home => "home"
  | dashboard => "dashboard"
  | results => "results"
  | marketplace => "marketplace"
  | marketplace_sell => "marketplace_sell"
  | marketplace_buy => "marketplace_buy"
  | about => "about"
  end.

(** The paths the route table lists. *)
Definition listed_paths : list string :=
  [ "/"; "/dashboard"; "/results"; "/marketplace";
    "/marketplace/sell"; "/marketplace/buy"; "/about" ].

(** What the router hands out as [loc.pathname]: a string with a leading
    slash. *)
Definition is_pathname (s : string) : Prop :=
  match s with
  | String c _ => c = "/"%char
  | EmptyString => False
  end.

(** ** Effects and exceptions

    What a handler does to the outside world is a trace of calls, in the
    order they are made.  A handler can also throw; the calls made before the
    throw stay made. *)

Inductive Effect : Type :=
| Navigate (to : JSValue)                       (* navigate(to) *)
| DispatchEvent (type : string) (detail : JSValue).
                    (* window.dispatchEvent(new CustomEvent(type, { detail })) *)

Definition Eff (A : Type) : Type := list Effect * (Exn + A).

#[export] Instance eff_ret : MRet Eff := λ A x, ([], inr x).

#[export] Instance eff_bind : MBind Eff := λ A B k m,
  match m with
  | (tr, inl e) => (tr, inl e)
  | (tr, inr x) => let '(tr', r) := k x in (tr ++ tr', r)
  end.

Definition throw {A} (e : Exn) : Eff A := ([], inl e).

(** A computation that makes no call: it returns or it throws. *)
Definition lift {A} (r : Exn + A) : Eff A := ([], r).

Definition perform (e : Effect) : Eff unit := ([e], inr tt).

Definition when (b : bool) (m : Eff unit) : Eff unit := if b then m else mret tt.

Definition trace {A} (m : Eff A) : list Effect := m.1.

Definition thrown {A} (m : Eff A) : option Exn :=
  match m.2 with
  | inl e => Some e
  | inr _ => None
  end.

(** [v.k] for one of the property names the component reads ([ui_action],
    [page], [query], [fields]).  Reading a property of [null] or [undefined]
    throws; an object gives its own property, found by name; no prototype has
    a property of these names, so every other value gives [undefined]. *)
Fixpoint own_property (props : list (string * JSValue)) (k : string) : JSValue :=
  match props with
  | [] => JUndefined
  | (k', v) :: rest => if bool_decide (k' = k) then v else own_property rest k
  end.

Definition get (v : JSValue) (k : string) : Eff JSValue :=
  match v with
  | JUndefined | JNull => throw TypeError
  | JObj props => mret (own_property props k)
  | _ => mret JUndefined
  end.

Definition nullish (v : JSValue) : bool :=
  match v with
  | JUndefined | JNull => true
  | _ => false
  end.

(** The value [v.k] has when [v] is neither [null] nor [undefined]. *)
Definition prop (v : JSValue) (k : string) : JSValue :=
  match v with
  | JObj props => own_property props k
  | _ => JUndefined
  end.

(** ** The action dispatcher *)

Section Dispatcher.

(** [loc.pathname], as the render that created the callback saw it. *)
Variable pathname : string.

(** The body of the [forEach] callback: three independent [if]s. *)
Definition on_action (a : JSValue) : Eff unit :=
  (tag ← get a "ui_action";
   when (strict_eq_str tag "guide")
     (page ← get a "page";
      route ← lift (route page);
      when (truthy route && negb (strict_eq_str route pathname))
        (perform (Navigate route)))) ;;
  (tag ← get a "ui_action";
   when (strict_eq_str tag "fill_query")
     (query ← get a "query";
      perform (DispatchEvent "assistant-fill-query" (JObj [("query", query)])))) ;;
  (tag ← get a "ui_action";
   when (strict_eq_str tag "fill_sell_form")
     (fields ← get a "fields";
      perform (DispatchEvent "assistant-fill-sell-form" fields))).

(** [actions.forEach(...)]: in array order, stopping at the first throw. *)
Fixpoint executeUIActions (actions : list JSValue) : Eff unit :=
  match actions with
  | [] => mret tt
  | a :: rest => on_action a ;; executeUIActions rest
  end.

End Dispatcher.

(** ** Messages, turns and the component's state *)

Inductive Role : Type := user | assistant.

Record Message : Type := {
  role : Role;
  text : JSValue;
  badge : JSValue;
}.

(** The JSON body of the POST to [/api/assistant/chat]. *)
Record AgentTurn : Type := {
  message : string;
  turn_thread_id : JSValue;
  current_page : JSValue;
  page_context_language : string;
}.

(** The parsed body of the answer, [data].  [thread_id] and [reply] are
    whatever the body holds there ([JUndefined] when it holds nothing);
    [tools_called] and [ui_actions] are an array, or [None] when the body
    has [null] or nothing there. *)
Record AgentReply : Type := {
  reply : JSValue;
  thread_id : JSValue;
  tools_called : option (list JSValue);
  ui_actions : option (list JSValue);
}.

(** How [res.json()] settles: it rejects, or it yields [null], or an object. *)
Inductive Body : Type :=
| BadJSON
| JSONNull
| JSONData (data : AgentReply).

(** How the [fetch] settles: it rejects, or it yields a response. *)
Inductive FetchOutcome : Type :=
| Rejected
| Responded (status : Z) (body : Body).

(** [res.ok]. *)
Definition res_ok (status : Z) : bool := (200 <=? status)%Z && (status <=? 299)%Z.

(** What an unsettled [send] still holds on to: the turn it posted and the
    [loc.pathname] that its [executeUIActions] closed over. *)
Record Pending : Type := {
  turn : AgentTurn;
  seen_pathname : string;
}.

(** The React state of the component ([msgs], [input], [loading],
    [threadId]), the two values it reads from its hooks ([loc.pathname],
    [i18n.language]), the requests in flight, the calls made so far to
    the transport and to the host page, and the location the router has been
    asked for by [navigate] and the component has not rendered yet. *)
Record World : Type := {
  msgs : list Message;
  input : string;
  loading : bool;
  threadId : JSValue;
  pathname : string;
  language : string;
  inflight : list Pending;
  transport : list AgentTurn;
  effects : list Effect;
  requested : option JSValue;
}.

Definition setMsgs (f : list Message → list Message) (w : World) : World :=
  {| msgs := f (msgs w); input := input w; loading := loading w;
     threadId := threadId w; pathname := pathname w; language := language w;
     inflight := inflight w; transport := transport w; effects := effects w;
     requested := requested w |}.

Definition setInput (s : string) (w : World) : World :=
  {| msgs := msgs w; input := s; loading := loading w;
     threadId := threadId w; pathname := pathname w; language := language w;
     inflight := inflight w; transport := transport w; effects := effects w;
     requested := requested w |}.

Definition setLoading (b : bool) (w : World) : World :=
  {| msgs := msgs w; input := input w; loading := b;
     threadId := threadId w; pathname := pathname w; language := language w;
     inflight := inflight w; transport := transport w; effects := effects w;
     requested := requested w |}.

Definition setThreadId (v : JSValue) (w : World) : World :=
  {| msgs := msgs w; input := input w; loading := loading w;
     threadId := v; pathname := pathname w; language := language w;
     inflight := inflight w; transport := transport w; effects := effects w;
     requested := requested w |}.

(** A render with a new [loc.pathname] and [i18n.language]: the router has
    moved, and nothing is left requested. *)
Definition setLocation (path lang : string) (w : World) : World :=
  {| msgs := msgs w; input := input w; loading := loading w;
     threadId := threadId w; pathname := path; language := lang;
     inflight := inflight w; transport := transport w; effects := effects w;
     requested := None |}.

Definition setInflight (l : list Pending) (w : World) : World :=
  {| msgs := msgs w; input := input w; loading := loading w;
     threadId := threadId w; pathname := pathname w; language := language w;
     inflight := l; transport := transport w; effects := effects w;
     requested := requested w |}.

(** A call of [fetch]: the turn goes out and the continuation is parked. *)
Definition fetch (p : Pending) (w : World) : World :=
  {| msgs := msgs w; input := input w; loading := loading w;
     threadId := threadId w; pathname := pathname w; language := language w;
     inflight := inflight w ++ [p]; transport := transport w ++ [turn p];
     effects := effects w; requested := requested w |}.

(** The target of the last [navigate] among the calls of a handler: the
    location the router is left with. *)
Definition navigation (tr : list Effect) : option JSValue :=
  last (omap (λ e, if e is Navigate to then Some to else None) tr).

(** The calls a handler made reach the host page, and the router keeps the
    location it was last asked for. *)
Definition performed (tr : list Effect) (w : World) : World :=
  {| msgs := msgs w; input := input w; loading := loading w;
     threadId := threadId w; pathname := pathname w; language := language w;
     inflight := inflight w; transport := transport w;
     effects := effects w ++ tr;
     requested := if navigation tr is Some to then Some to else requested w |}.

(** The characters [String.prototype.trim] removes, WhiteSpace and
    LineTerminator, each by its UTF-8 bytes. *)
Definition white_space : list (list ascii) :=
  [ ["009"]; ["010"]; ["011"]; ["012"]; ["013"]; [" "];  (* TAB LF VT FF CR SP *)
    ["194"; "160"];                                      (* U+00A0 *)
    ["225"; "154"; "128"];                               (* U+1680 *)
    ["226"; "128"; "128"]; ["226"; "128"; "129"];        (* U+2000, U+2001 *)
    ["226"; "128"; "130"]; ["226"; "128"; "131"];        (* U+2002, U+2003 *)
    ["226"; "128"; "132"]; ["226"; "128"; "133"];        (* U+2004, U+2005 *)
    ["226"; "128"; "134"]; ["226"; "128"; "135"];        (* U+2006, U+2007 *)
    ["226"; "128"; "136"]; ["226"; "128"; "137"];        (* U+2008, U+2009 *)
    ["226"; "128"; "138"];                               (* U+200A *)
    ["226"; "128"; "168"]; ["226"; "128"; "169"];        (* U+2028, U+2029 *)
    ["226"; "128"; "175"];                               (* U+202F *)
    ["226"; "129"; "159"];                               (* U+205F *)
    ["227"; "128"; "128"];                               (* U+3000 *)
    ["239"; "187"; "191"] ]%char.                        (* U+FEFF *)

(** One white-space character less at the front, if there is one. *)
Definition strip_start (l : list ascii) : list ascii :=
  match List.find (λ w, bool_decide (w `prefix_of` l)) white_space with
  | Some w => drop (length w) l
  | None => l
  end.

(** One white-space character less at the end, if there is one. *)
Definition strip_end (l : list ascii) : list ascii :=
  match List.find (λ w, bool_decide (w `suffix_of` l)) white_space with
  | Some w => take (length l - length w) l
  | None => l
  end.

(** A string has no more characters than bytes, so that many rounds remove
    all the white space there is at one end. *)
Definition trim_start (l : list ascii) : list ascii :=
  Nat.iter (length l) strip_start l.

Definition trim_end (l : list ascii) : list ascii :=
  Nat.iter (length l) strip_end l.

(** [String.prototype.trim]. *)
Definition trim (s : string) : string :=
  String.string_of_list_ascii
    (trim_end (trim_start (String.list_ascii_of_string s))).

Arguments trim : simpl never.

(** [xs?.length] as a condition. *)
Definition has_length (xs : option (list JSValue)) : bool :=
  match xs with
  | Some (_ :: _) => true
  | _ => false
  end.

(** [xs[xs.length - 1]]. *)
Definition at_last_index (xs : list JSValue) : JSValue :=
  default JUndefined (xs !! (length xs - 1)).

(** [data.tools_called?.length ? data.tools_called[data.tools_called.length - 1] : null]. *)
Definition derive_badge (data : AgentReply) : JSValue :=
  if has_length (tools_called data)
  then at_last_index (default [] (tools_called data))
  else JNull.

(** ** The controller *)

(** The exceptions the [try] block of [send] can see. *)
Inductive Failure : Type :=
| FetchFailed                 (* the fetch promise rejected *)
| ServerStatus (status : Z)   (* throw new Error(`Server ${res.status}`) *)
| JSONSyntax                  (* res.json() rejected *)
| Thrown (e : Exn).           (* a TypeError thrown while handling the data *)

(** Strict equality of two values of [page]: each is a page name or, for a
    pathname that names a member of [Object.prototype], that member. *)
Definition same_page (a b : JSValue) : bool :=
  match a, b with
  | JStr x, JStr y => bool_decide (x = y)
  | JBuiltin x, JBuiltin y => bool_decide (x = y)
  | _, _ => false
  end.

Inductive Event : Type :=
| Typed (s : string)                   (* onChange of the textarea *)
| Submit                               (* click on the send button, or Enter *)
| Settle (i : nat) (o : FetchOutcome)  (* the i-th request in flight settles *)
| Reset (fresh : string)               (* click on the reset button *)
| Relocate (path lang fresh : string). (* a render at a new location or language *)

Section Controller.

(** [t], the translation function of [useTranslation], by language. *)
Variable t : string → string → string.

(** [const page = ROUTE_TO_PAGE[loc.pathname] || "home"]. *)
Definition page (w : World) : JSValue := resolve (pathname w).

(** [getGreeting(page)], wrapped as the message both resets install. *)
Definition getGreeting (lang : string) (page : JSValue) : string :=
  t lang ("assistant.greetings." +:+ template page).

Definition greeting (lang : string) (page : JSValue) : Message :=
  {| role := assistant; text := JStr (getGreeting lang page); badge := JNull |}.

Definition error_message (lang : string) : Message :=
  {| role := assistant; text := JStr (t lang "assistant.error"); badge := JNull |}.

(** [send], up to the [await]. *)
Definition send (w : World) : World :=
  let text := trim (input w) in
  if negb (truthy (JStr text)) || loading w then w
  else
    let request :=
      {| turn := {| message := text;
                    turn_thread_id := threadId w;
                    current_page := page w;
                    page_context_language := language w |};
         seen_pathname := pathname w |} in
    let w := setMsgs (λ prev, prev ++ [{| role := user; text := JStr text; badge := JNull |}]) w in
    let w := setInput "" w in
    let w := setLoading true w in
    fetch request w.

(** The rest of the [try] block, once the fetch has settled: the world it
    leaves, and the exception it ends with if it throws.  The calls of the
    dispatcher reach the host page at once; a call of [navigate] among them
    leaves the router with a location ([requested]) that the component
    renders in the step after this one ([enabled], [relocate]), where the
    page effect replaces the log and the thread identifier if the page has
    changed. *)
Definition try_block (p : Pending) (o : FetchOutcome) (w : World)
  : World * option Failure :=
  match o with
  | Rejected => (w, Some FetchFailed)
  | Responded status body =>
      if negb (res_ok status) then (w, Some (ServerStatus status))
      else
        match body with
        | BadJSON => (w, Some JSONSyntax)
        | JSONNull => (w, Some (Thrown TypeError))
        | JSONData data =>
            let w := setThreadId (thread_id data) w in
            let run :=
              if has_length (ui_actions data)
              then executeUIActions (seen_pathname p) (default [] (ui_actions data))
              else mret tt in
            let w := performed (trace run) w in
            match thrown run with
            | Some e => (w, Some (Thrown e))
            | None =>
                (setMsgs (λ prev, prev ++ [{| role := assistant;
                                             text := reply data;
                                             badge := derive_badge data |}]) w,
                 None)
            end
        end
  end.

Definition catch_block (p : Pending) (w : World) : World :=
  setMsgs (λ prev, prev ++ [error_message (page_context_language (turn p))]) w.

(** [send], from the [await] on: try, catch, finally. *)
Definition resume (p : Pending) (o : FetchOutcome) (w : World) : World :=
  let '(w, failure) := try_block p o w in
  let w := if failure is Some _ then catch_block p w else w in
  setLoading false w.

(** [reset], with [fresh] the identifier [uuid()] returns. *)
Definition reset (fresh : string) (w : World) : World :=
  let w := setThreadId (JStr fresh) w in
  setMsgs (λ _, [greeting (language w) (page w)]) w.

(** The effect with dependencies [[page, i18n.language]]. *)
Definition page_effect (fresh : string) (w : World) : World :=
  let w := setMsgs (λ _, [greeting (language w) (page w)]) w in
  setThreadId (JStr fresh) w.

(** A new location or language: the component renders again and the effect
    runs if one of its dependencies changed. *)
Definition relocate (path lang fresh : string) (w : World) : World :=
  let w' := setLocation path lang w in
  if same_page (page w') (page w) && bool_decide (lang = language w)
  then w'
  else page_effect fresh w'.

Definition step (e : Event) (w : World) : World :=
  match e with
  | Typed s => setInput s w
  | Submit => send w
  | Settle i o =>
      match inflight w !! i with
      | Some p => resume p o (setInflight (delete i (inflight w)) w)
      | None => w
      end
  | Reset fresh => reset fresh w
  | Relocate path lang fresh => relocate path lang fresh w
  end.

Fixpoint run (es : list Event) (w : World) : World :=
  match es with
  | [] => w
  | e :: es => run es (step e w)
  end.

(** The first render and its effects: [useState(() => uuid())] draws
    [id0], then the page effect draws [id1]. *)
Definition mount (path lang id0 id1 : string) : World :=
  page_effect id1
    {| msgs := []; input := ""; loading := false; threadId := JStr id0;
       pathname := path; language := lang;
       inflight := []; transport := []; effects := [];
       requested := None |}.

(** Where the router lands for [navigate(to)]: on [to] when it is a path. *)
Definition lands (to : JSValue) (path : string) : Prop :=
  match to with
  | JStr route => path = route
  | _ => True
  end.

(** The events that can be delivered.  Once a handler has called [navigate],
    the render at the requested location comes before anything else. *)
Definition enabled (e : Event) (w : World) : Prop :=
  match requested w with
  | None => True
  | Some to =>
      match e with
      | Relocate path lang _ => lands to path ∧ lang = language w
      | _ => False
      end
  end.

(** The states the component gets to when any event can follow any other:
    more states than the next relation allows. *)
Inductive reachable : World → Prop :=
| reachable_mount path lang id0 id1 :
    reachable (mount path lang id0 id1)
| reachable_step e w :
    reachable w → reachable (step e w).

(** The states the component gets to when the events are delivered as the
    host delivers them, every requested render in its turn. *)
Inductive delivered : World → Prop :=
| delivered_mount path lang id0 id1 :
    delivered (mount path lang id0 id1)
| delivered_step e w :
    delivered w → enabled e w → delivered (step e w).

End Controller.

(** ** Vocabulary of the statements *)

(** The events of one type in a trace. *)
Definition is_signal (type : string) (e : Effect) : bool :=
  match e with
  | DispatchEvent type' _ => bool_decide (type' = type)
  | Navigate _ => false
  end.

(** The actions of one tag in a list. *)
Definition tagged (tag : string) (a : JSValue) : bool :=
  strict_eq_str (prop a "ui_action") tag.

(** The actions the callback of the dispatcher reads without throwing: not
    [null], and if a [guide], with a page that converts to a property key. *)
Definition readable (a : JSValue) : bool :=
  negb (nullish a) && (negb (tagged "guide" a) || stringifiable (prop a "page")).

(** The actions of a list up to the first one that cannot be read. *)
Fixpoint readable_prefix (actions : list JSValue) : list JSValue :=
  match actions with
  | a :: rest => if readable a then a :: readable_prefix rest else []
  | [] => []
  end.

(** Either nothing is in flight and the component is idle, or exactly one
    request is in flight and the component is sending. *)
Definition single_flight (w : World) : Prop :=
  (inflight w = [] ∧ loading w = false) ∨
  (∃ p, inflight w = [p] ∧ loading w = true).


(** ** Sample data

    One conversation on the dashboard, used to run the statements below. *)

Definition sample_t (lang key : string) : string := lang +:+ ":" +:+ key.

Definition fill_query_action (query : string) : JSValue :=
  JObj [("ui_action", JStr "fill_query"); ("query", JStr query)].

Definition guide_action (page : string) : JSValue :=
  JObj [("ui_action", JStr "guide"); ("page", JStr page)].

(** The widget on [/dashboard], thread [T1], with a question typed in. *)
Definition sample_idle : World :=
  step sample_t (Typed "  3 BHK apartment in Pune ")
    (mount sample_t "/dashboard" "en" "T0" "T1").

(** The question has been submitted and its request is in flight. *)
Definition sample_sending : World := step sample_t Submit sample_idle.

(** The user has clicked reset in the meantime: the thread is now [T2]. *)
Definition sample_after_reset : World := step sample_t (Reset "T2") sample_sending.

Definition sample_reply (thread : string) : AgentReply :=
  {| reply := JStr "Done";
     thread_id := JStr thread;
     tools_called := Some [JStr "guide_to_page"; JStr "fill_query_input"];
     ui_actions := Some [fill_query_action "3 BHK apartment in Pune"] |}.

Definition sample_request : Pending :=
  {| turn := {| message := "3 BHK apartment in Pune";
                turn_thread_id := JStr "T1";
                current_page := JStr "dashboard";
                page_context_language := "en" |};
     seen_pathname := "/dashboard" |}.

(** A list with an unroutable guide, a fill_query that has no query, an
    unknown tag, a fill_sell_form that has no fields, and two well-formed
    actions. *)
Definition sample_actions : list JSValue :=
  [ guide_action "nowhere";
    JObj [("ui_action", JStr "fill_query")];
    JObj [("ui_action", JStr "dance"); ("steps", JNum 3)];
    JObj [("ui_action", JStr "fill_sell_form")];
    guide_action "about";
    fill_query_action "2 BHK in Kharadi" ].

(** ** The rest of the widget: what the render shows

    [disabled={loading || !input.trim()}] on the send button, and
    [disabled={loading}] on the textarea. *)

Definition send_disabled (w : World) : bool :=
  loading w || negb (truthy (JStr (trim (input w)))).

Definition textarea_disabled (w : World) : bool := loading w.

Definition is_submit (e : Event) : bool :=
  match e with
  | Submit => true
  | _ => false
  end.

(** ** Vocabulary for [trim] *)

(** The white space of ASCII. *)
Definition is_space (c : ascii) : bool :=
  match c with
  | "009" | "010" | "011" | "012" | "013" | " " => true
  | _ => false
  end%char.

(** A run of white space: a sequence of white-space characters. *)
Definition white (l : list ascii) : Prop :=
  ∃ ws, Forall (λ w, w ∈ white_space) ws ∧ l = concat ws.

(** A string of white space only. *)
Definition blank (s : string) : Prop := white (String.list_ascii_of_string s).

(** No white-space character at the front, or at the end. *)
Definition clean_start (l : list ascii) : Prop :=
  ∀ w, w ∈ white_space → ¬ w `prefix_of` l.

Definition clean_end (l : list ascii) : Prop :=
  ∀ w, w ∈ white_space → ¬ w `suffix_of` l.

Definition starts_with_space (s : string) : bool :=
  match s with
  | String c _ => is_space c
  | EmptyString => false
  end.

Definition ends_with_space (s : string) : bool :=
  starts_with_space (String.rev s).

(** ** The render of a message

    [m.text.split("\n")], each line followed by a line break. *)

Definition newline : ascii := "010"%char.

(** [s.split("\n")]. *)
Fixpoint split_lines (s : string) : list string :=
  match s with
  | EmptyString => [EmptyString]
  | String c rest =>
      if Ascii.eqb c newline then EmptyString :: split_lines rest
      else match split_lines rest with
           | line :: lines => String c line :: lines
           | [] => [String c EmptyString]
           end
  end.

(** [lines.join("\n")]. *)
Fixpoint join_lines (lines : list string) : string :=
  match lines with
  | [] => EmptyString
  | [line] => line
  | line :: rest => line +:+ String newline (join_lines rest)
  end.

(** The line feeds in a text. *)
Fixpoint count_newlines (s : string) : nat :=
  match s with
  | EmptyString => 0
  | String c rest => (if Ascii.eqb c newline then 1 else 0) + count_newlines rest
  end.

(** The lines of the bubble of a message.  Only a string has a [split]
    method: on every other value of [m.text] the call throws. *)
Definition bubble_lines (m : Message) : Exn + list string :=
  match text m with
  | JStr s => inr (split_lines s)
  | _ => inl TypeError
  end.

(** Whether the answer an event brings, if it brings one, has a string for
    its reply. *)
Definition brings_text (e : Event) : bool :=
  match e with
  | Settle _ (Responded _ (JSONData data)) =>
      if reply data is JStr _ then true else false
  | _ => true
  end.

(** ** The pages that listen to the assistant

    [window.dispatchEvent] calls the listeners of the event's type at once,
    and an exception a listener throws does not reach the dispatcher. *)

(** [e.detail] as a listener reads it: [CustomEvent] turns a detail that is
    [undefined] into [null]. *)
Definition event_detail (detail : JSValue) : JSValue :=
  if detail is JUndefined then JNull else detail.

(** The own enumerable properties that [{...v}] copies: those of an object,
    the indexed elements of an array, the indexed characters of a string,
    and nothing for any other value, [null] and [undefined] included. *)
Definition spread (v : JSValue) : gmap string JSValue :=
  match v with
  | JObj props => list_to_map props
  | JArr items => list_to_map (imap (λ i x, (pretty i, x)) items)
  | JStr s =>
      list_to_map
        (imap (λ i c, (pretty i, JStr (String c EmptyString)))
              (String.list_ascii_of_string s))
  | _ => ∅
  end.

(** The dashboard page: the query input and its listener,
    [setQuery(e.detail.query)]. *)
Module Dashboard.

Definition handler (detail : JSValue) (query : JSValue) : JSValue * option Exn :=
  match get (event_detail detail) "query" with
  | (_, inr q) => (q, None)
  | (_, inl e) => (query, Some e)
  end.

(** What a call that reaches the window does to the mounted dashboard. *)
Definition listen (query : JSValue) (e : Effect) : JSValue :=
  match e with
  | DispatchEvent type detail =>
      if bool_decide (type = "assistant-fill-query")
      then (handler detail query).1
      else query
  | Navigate _ => query
  end.

Definition after (calls : list Effect) (query : JSValue) : JSValue :=
  foldl listen query calls.

End Dashboard.

(** The sell page: a five-step wizard over one
    form object. *)
Module SellProperty.

Record State : Type := {
  step : nat;
  form : gmap string JSValue;
  images : list string;
}.

Definition steps : list string :=
  ["Basic Info"; "Features"; "Description"; "Photos"; "Contact"].

Definition initial : State :=
  {| step := 1;
     form := list_to_map
       [ ("title", JStr ""); ("location", JStr ""); ("sublocality", JStr "");
         ("property_type", JStr "Apartment"); ("bhk", JStr "2 BHK");
         ("size", JStr ""); ("floor", JStr ""); ("total_floors", JStr "");
         ("property_age", JStr ""); ("price", JStr ""); ("furnishing", JStr "");
         ("parking", JNum 0); ("description", JStr ""); ("owner_name", JStr "");
         ("owner_phone", JStr ""); ("owner_email", JStr "");
         ("amenities", JObj []) ];
     images := [] |}.

Definition setStep (n : nat) (s : State) : State :=
  {| step := n; form := form s; images := images s |}.

Definition setForm (f : gmap string JSValue) (s : State) : State :=
  {| step := step s; form := f; images := images s |}.

Definition setImages (l : list string) (s : State) : State :=
  {| step := step s; form := form s; images := l |}.

(** The listener of [assistant-fill-sell-form]: the state it leaves and the
    exception it ends with, if any. *)
Definition handler (detail : JSValue) (s : State) : State * option Exn :=
  let fields := event_detail detail in
  let s' := setForm (spread fields ∪ form s) s in
  match get fields "description" with
  | (_, inl e) => (s', Some e)
  | (_, inr description) =>
      (if truthy description && (step s <? 3) then setStep 3 s' else s', None)
  end.

(** [handleChange], with [value] what the input holds, a number for a
    number input. *)
Definition handleChange (name : string) (value : JSValue) (s : State) : State :=
  setForm (<[name := value]> (form s)) s.

Definition handleFileChange (files : list string) (s : State) : State :=
  setImages (take 6 files) s.

Definition next (s : State) : State := setStep (Nat.min (step s + 1) (length steps)) s.

Definition prev (s : State) : State := setStep (Nat.max (step s - 1) 1) s.

(** [form.k]. *)
Definition field (s : State) (k : string) : JSValue :=
  default JUndefined (form s !! k).

Definition required : list string :=
  [ "title"; "location"; "sublocality"; "size"; "price";
    "owner_name"; "owner_phone"; "owner_email" ].

(** [handleSubmit], up to its fetch: it alerts and returns, or it posts the
    form and the images. *)
Inductive Submission : Type :=
| Alert (message : string)
| Post (form : gmap string JSValue) (images : list string).

Definition handleSubmit (s : State) : Submission :=
  if existsb (λ k, negb (truthy (field s k))) required
  then Alert "Please fill all required fields"
  else Post (form s) (images s).

Inductive Event : Type :=
| Next
| Prev
| Change (name : string) (value : JSValue)
| Files (files : list string)
| Fill (detail : JSValue).

Definition on (e : Event) (s : State) : State :=
  match e with
  | Next => next s
  | Prev => prev s
  | Change name value => handleChange name value s
  | Files files => handleFileChange files s
  | Fill detail => (handler detail s).1
  end.

(** What a call that reaches the window does to the mounted form. *)
Definition listen (s : State) (e : Effect) : State :=
  match e with
  | DispatchEvent type detail =>
      if bool_decide (type = "assistant-fill-sell-form")
      then (handler detail s).1
      else s
  | Navigate _ => s
  end.

Definition after (calls : list Effect) (s : State) : State :=
  foldl listen s calls.

End SellProperty.




(** ** The results page: the news list

    [newsPage] starts at 1; the intersection observer, installed when
    [results.news] has a length, moves it on by
    [p => p < Math.ceil(results.news.length / NEWS_PAGE_SIZE) ? p + 1 : p];
    the render shows [results.news.slice(0, newsPage * NEWS_PAGE_SIZE)]. *)
Module Results.

Definition NEWS_PAGE_SIZE : nat := 3.

(** [Math.ceil(n / NEWS_PAGE_SIZE)]. *)
Definition maxPages (n : nat) : nat :=
  (n + (NEWS_PAGE_SIZE - 1)) / NEWS_PAGE_SIZE.

(** The observer's callback on an intersection, for a list of [n] news. *)
Definition intersect (n : nat) (newsPage : nat) : nat :=
  match n with
  | 0 => newsPage
  | _ => if newsPage <? maxPages n then newsPage + 1 else newsPage
  end.

Definition visibleNews {A} (news : list A) (newsPage : nat) : list A :=
  take (newsPage * NEWS_PAGE_SIZE) news.

End Results.

(** ** The buy page: the listings and their filters

    The rows are the elements of the array the backend returns, read with
    [p.location], [p.sublocality] and [p.price].  The two numeric
    comparisons, [Number(p.price) >= Number(min)] and
    [Number(p.price) <= Number(max)], are left open. *)
Module BuyProperty.

(** [a === b] on two values one of which is a string held in the state. *)
Definition is_string (s : string) (v : JSValue) : bool := strict_eq_str v s.

(** Equality as [Set] sees it.  Two arrays or two objects that come from
    different rows are different values. *)
Definition same_value_zero (a b : JSValue) : bool :=
  match a, b with
  | JUndefined, JUndefined | JNull, JNull => true
  | JBool x, JBool y => Bool.eqb x y
  | JNum x, JNum y => Z.eqb x y
  | JStr x, JStr y => String.eqb x y
  | _, _ => false
  end.

(** [[...new Set(values)]]: the values in the order of their first
    occurrence. *)
Definition unique (values : list JSValue) : list JSValue :=
  foldl (λ seen v, if existsb (same_value_zero v) seen then seen else seen ++ [v])
        [] values.

(** The localities offered once a city is selected. *)
Definition localities_of (properties : list JSValue) (selectedCity : string)
  : list JSValue :=
  if truthy (JStr selectedCity)
  then unique ((λ p, prop p "sublocality")
                 <$> List.filter (λ p, is_string selectedCity (prop p "location"))
                                 properties)
  else [].

(** The cities offered once the rows are loaded. *)
Definition cities_of (properties : list JSValue) : list JSValue :=
  unique ((λ p, prop p "location") <$> properties).

Section Filters.

Variable price_at_least : JSValue → string → bool.
Variable price_at_most : JSValue → string → bool.

(** One [if (f) temp = temp.filter(...)] of [applyFilters]. *)
Definition narrow (f : string) (keep : JSValue → bool) (temp : list JSValue)
  : list JSValue :=
  if truthy (JStr f) then List.filter keep temp else temp.

Definition applyFilters
    (properties : list JSValue)
    (selectedCity selectedLocality min max : string) : list JSValue :=
  let temp := properties in
  let temp := narrow selectedCity
                (λ p, is_string selectedCity (prop p "location")) temp in
  let temp := narrow selectedLocality
                (λ p, is_string selectedLocality (prop p "sublocality")) temp in
  let temp := narrow min (λ p, price_at_least (prop p "price") min) temp in
  let temp := narrow max (λ p, price_at_most (prop p "price") max) temp in
  temp.

(** Whether a row passes the filters that are set. *)
Definition passes (selectedCity selectedLocality min max : string) (p : JSValue)
  : bool :=
  (negb (truthy (JStr selectedCity)) || is_string selectedCity (prop p "location")) &&
  (negb (truthy (JStr selectedLocality)) ||
     is_string selectedLocality (prop p "sublocality")) &&
  (negb (truthy (JStr min)) || price_at_least (prop p "price") min) &&
  (negb (truthy (JStr max)) || price_at_most (prop p "price") max).

End Filters.

End BuyProperty.

(** Whether an event keeps the location a pathname of the router. *)
Definition keeps_pathname (e : Event) : Prop :=
  match e with
  | Relocate path _ _ => is_pathname path
  | _ => True
  end.

(** ** More sample data *)

(** The widget on [/login], a pathname the route table does not list. *)
Definition sample_login : World := mount sample_t "/login" "en" "T0" "T1".

(** An answer without a reply. *)
Definition sample_silent_reply : AgentReply :=
  {| reply := JUndefined; thread_id := JStr "t2";
     tools_called := None; ui_actions := None |}.

(** An answer whose action list has a [null] in the middle. *)
Definition sample_broken_reply : AgentReply :=
  {| reply := JStr "Done"; thread_id := JStr "t2";
     tools_called := None;
     ui_actions := Some ([fill_query_action "first"] ++ JNull :: [fill_query_action "second"]) |}.

(** An answer that guides to the about page, the state it leaves on the
    dashboard, and the state after the render at [/about]. *)
Definition sample_guiding_reply : AgentReply :=
  {| reply := JStr "Opening the about page"; thread_id := JStr "t2";
     tools_called := Some [JStr "guide_to_page"];
     ui_actions := Some [guide_action "about"] |}.

Definition sample_answered : World :=
  step sample_t (Settle 0 (Responded 200 (JSONData sample_guiding_reply)))
    sample_sending.

Definition sample_rendered : World :=
  step sample_t (Relocate "/about" "en" "T9") sample_answered.

(** One whole turn. *)
Definition sample_events : list Event :=
  [ Typed "  3 BHK apartment in Pune "; Submit;
    Settle 0 (Responded 200 (JSONData (sample_reply "t2"))) ].

(** Three actions for the dashboard, the second without a query. *)
Definition sample_queries : list JSValue :=
  [ fill_query_action "3 BHK apartment in Pune";
    JObj [("ui_action", JStr "fill_query")];
    fill_query_action "2 BHK in Kharadi" ].



Definition listing (city locality : string) (price : Z) : JSValue :=
  JObj [("location", JStr city); ("sublocality", JStr locality); ("price", JNum price)].

Definition sample_rows : list JSValue :=
  [ listing "Pune" "Kharadi" 90; listing "Pune" "Baner" 120;
    listing "Mumbai" "Andheri" 200; listing "Pune" "Kharadi" 75 ].

(** * Properties *)

(** ** The route tables *)

Lemma route_of_page (p : PageContext) :
  route (JStr (page_name p)) =
  inr (JStr match p with
            | home => "/"
            | dashboard => "/dashboard"
            | results => "/results"
            | marketplace => "/marketplace"
            | marketplace_sell => "/marketplace/sell"
            | marketplace_buy => "/marketplace/buy"
            | about => "/about"
            end).
Proof. by destruct p; vm_compute. Qed.

(** C3. For each of the seven pages, [PAGE_TO_ROUTE] gives a path, and
    resolving that path through [ROUTE_TO_PAGE] gives the page back:
    resolve(route(p)) = p. *)
Theorem resolve_route_roundtrip (p : PageContext) :
  ∃ path : string,
    route (JStr (page_name p)) = inr (JStr path) ∧
    resolve path = JStr (page_name p).
Proof.
  rewrite route_of_page. eexists; split; [reflexivity|].
  by destruct p; vm_compute.
Qed.

(** The other direction: the listed paths are exactly the routes of the
    pages, and routing the page a listed path resolves to gives it back. *)
Lemma route_resolve_roundtrip (path : string) :
  path ∈ listed_paths →
  ∃ p : PageContext,
    resolve path = JStr (page_name p) ∧
    route (JStr (page_name p)) = inr (JStr path).
Proof.
  unfold listed_paths. rewrite !elem_of_cons, elem_of_nil.
  intros [->|[->|[->|[->|[->|[->|[->|[]]]]]]]].
  - by exists home.
  - by exists dashboard.
  - by exists results.
  - by exists marketplace.
  - by exists marketplace_sell.
  - by exists marketplace_buy.
  - by exists about.
Qed.

Lemma pathname_not_inherited (path : string) :
  is_pathname path → inherited path = JUndefined.
Proof.
  destruct path as [|c rest]; simpl; [done|]. intros ->.
  unfold inherited. rewrite bool_decide_eq_false_2; [done|].
  unfold object_prototype_keys. rewrite !elem_of_cons, elem_of_nil.
  intros H. repeat destruct H as [H|H]; try discriminate H. destruct H.
Qed.

Lemma unlisted_path_lookup (path : string) :
  path ∉ listed_paths → ROUTE_TO_PAGE !! path = None.
Proof.
  intros H. apply not_elem_of_list_to_map_1. exact H.
Qed.

(** C9. [resolve] is defined on every pathname the router can supply and
    its value is always one of the seven pages; on a pathname that the route
    table does not list, the value is [home]. *)
Theorem resolve_total_default_home (path : string) :
  is_pathname path →
  (∃ p : PageContext, resolve path = JStr (page_name p)) ∧
  (path ∉ listed_paths → resolve path = JStr "home").
Proof.
  intros Hpath.
  assert (Hdef : path ∉ listed_paths → resolve path = JStr "home").
  { intros Hun. unfold resolve, member.
    rewrite (unlisted_path_lookup _ Hun), (pathname_not_inherited _ Hpath).
    reflexivity. }
  split; [|exact Hdef].
  destruct (decide (path ∈ listed_paths)) as [Hin|Hout].
  - destruct (route_resolve_roundtrip _ Hin) as (p & Hp & _). by exists p.
  - exists home. by apply Hdef.
Qed.

(** ** The dispatcher *)

Lemma bind_trace {A B} (m : Eff A) (k : A → Eff B) (x : A) :
  m.2 = inr x → trace (m ≫= k) = trace m ++ trace (k x).
Proof.
  destruct m as [tr [e|y]]; simpl; intros [= ->].
  unfold trace, mbind, eff_bind. by destruct (k x).
Qed.

Lemma bind_thrown {A B} (m : Eff A) (k : A → Eff B) (x : A) :
  m.2 = inr x → thrown (m ≫= k) = thrown (k x).
Proof.
  destruct m as [tr [e|y]]; simpl; intros [= ->].
  unfold thrown, mbind, eff_bind. by destruct (k x).
Qed.

Lemma get_prop (a : JSValue) (k : string) :
  nullish a = false → get a k = mret (prop a k).
Proof. by destruct a. Qed.

(** The tag of an action, [a.ui_action]. *)
Abbreviation tag_of a := (prop a "ui_action").

Lemma strict_eq_str_true (v : JSValue) (s : string) :
  strict_eq_str v s = true ↔ v = JStr s.
Proof.
  destruct v; simpl; try by split.
  rewrite bool_decide_eq_true. split; congruence.
Qed.

Lemma strict_eq_str_false (v : JSValue) (s : string) :
  strict_eq_str v s = false ↔ v ≠ JStr s.
Proof.
  rewrite <-strict_eq_str_true. by destruct (strict_eq_str v s).
Qed.

Lemma route_stringifiable (page r : JSValue) :
  route page = inr r → stringifiable page = true.
Proof. unfold route, obj_get, stringifiable. by destruct (to_string page). Qed.

Lemma stringifiable_route (page : JSValue) :
  stringifiable page = true → ∃ r, route page = inr r.
Proof.
  unfold route, obj_get, stringifiable.
  destruct (to_string page); [done|eauto].
Qed.

Lemma unstringifiable_route (page : JSValue) :
  stringifiable page = false → route page = inl TypeError.
Proof.
  unfold route, obj_get, stringifiable.
  by destruct (to_string page) as [[]|].
Qed.

(** The callback on an action that is not [null]: the lookup of a guide
    comes first, and the calls are made once it has returned. *)
Lemma on_action_eq (pathname : string) (a : JSValue) :
  nullish a = false →
  on_action pathname a =
    match (if tagged "guide" a then route (prop a "page") else inr JUndefined) with
    | inl e => ([], inl e)
    | inr r =>
        ((if tagged "guide" a && (truthy r && negb (strict_eq_str r pathname))
          then [Navigate r] else []) ++
         (if tagged "fill_query" a
          then [DispatchEvent "assistant-fill-query" (JObj [("query", prop a "query")])]
          else []) ++
         (if tagged "fill_sell_form" a
          then [DispatchEvent "assistant-fill-sell-form" (prop a "fields")]
          else []),
         inr tt)
    end.
Proof.
  intros Ha. unfold on_action, tagged.
  rewrite !(get_prop a) by assumption.
  unfold mbind, eff_bind, mret, eff_ret, when, perform, lift; simpl.
  rewrite ?(get_prop a) by assumption.
  unfold mret, eff_ret; simpl.
  destruct (strict_eq_str (tag_of a) "guide"),
           (strict_eq_str (tag_of a) "fill_query"),
           (strict_eq_str (tag_of a) "fill_sell_form"); simpl;
    try reflexivity.
  all: destruct (route (prop a "page")) as [e|r]; simpl; try reflexivity.
  all: by destruct (truthy r && negb (strict_eq_str r pathname)).
Qed.

Lemma readable_nullish (a : JSValue) : readable a = true → nullish a = false.
Proof. unfold readable. by destruct (nullish a). Qed.

Lemma nullish_unreadable (a : JSValue) : nullish a = true → readable a = false.
Proof. unfold readable. by intros ->. Qed.

Lemma readable_guide (a r : JSValue) :
  nullish a = false → route (prop a "page") = inr r → readable a = true.
Proof.
  intros Ha Hr. unfold readable.
  rewrite Ha, (route_stringifiable _ _ Hr). by rewrite orb_true_r.
Qed.

Lemma readable_other (a : JSValue) :
  nullish a = false → tag_of a ≠ JStr "guide" → readable a = true.
Proof.
  intros Ha Hg%strict_eq_str_false. unfold readable, tagged. by rewrite Ha, Hg.
Qed.

(** Reading a readable action never throws. *)
Lemma on_action_returns (pathname : string) (a : JSValue) :
  readable a = true → (on_action pathname a).2 = inr tt.
Proof.
  intros Hr. pose proof (readable_nullish a Hr) as Ha.
  rewrite (on_action_eq _ _ Ha). unfold readable in Hr. rewrite Ha in Hr.
  destruct (tagged "guide" a); simpl in Hr; [|done].
  by destruct (stringifiable_route _ Hr) as [r ->].
Qed.

(** On any other action the callback throws before it has made a call. *)
Lemma on_action_throws (pathname : string) (a : JSValue) :
  readable a = false → on_action pathname a = ([], inl TypeError).
Proof.
  unfold readable. destruct (nullish a) eqn:Ha; simpl.
  - intros _. by destruct a.
  - rewrite (on_action_eq _ _ Ha). destruct (tagged "guide" a); simpl; [|done].
    intros Hp. by rewrite (unstringifiable_route _ Hp).
Qed.

(** A list is run up to its first unreadable action. *)
Lemma executeUIActions_step (pathname : string) (a : JSValue) (rest : list JSValue) :
  executeUIActions pathname (a :: rest) =
    if readable a
    then (trace (on_action pathname a) ++ trace (executeUIActions pathname rest),
          (executeUIActions pathname rest).2)
    else ([], inl TypeError).
Proof.
  destruct (readable a) eqn:Ha.
  - pose proof (on_action_returns pathname a Ha) as Hret. simpl.
    destruct (on_action pathname a) as [tr r]; simpl in *. subst r.
    unfold mbind, eff_bind, trace. by destruct (executeUIActions pathname rest).
  - simpl. by rewrite (on_action_throws _ _ Ha).
Qed.

Lemma executeUIActions_step_trace (pathname : string) (a : JSValue) (rest : list JSValue) :
  trace (executeUIActions pathname (a :: rest)) =
    if readable a
    then trace (on_action pathname a) ++ trace (executeUIActions pathname rest)
    else [].
Proof. rewrite executeUIActions_step. by destruct (readable a). Qed.

Lemma executeUIActions_cons (pathname : string) (a : JSValue) (rest : list JSValue) :
  readable a = true →
  trace (executeUIActions pathname (a :: rest)) =
    trace (on_action pathname a) ++ trace (executeUIActions pathname rest) ∧
  thrown (executeUIActions pathname (a :: rest)) =
    thrown (executeUIActions pathname rest).
Proof. intros Ha. by rewrite executeUIActions_step, Ha. Qed.

Lemma executeUIActions_trace (pathname : string) (actions : list JSValue) :
  Forall (λ a, readable a = true) actions →
  trace (executeUIActions pathname actions) =
    concat ((λ a, trace (on_action pathname a)) <$> actions).
Proof.
  induction 1 as [|a rest Ha _ IH]; [done|].
  destruct (executeUIActions_cons pathname a rest Ha) as [-> _].
  by rewrite IH.
Qed.

Lemma executeUIActions_returns (pathname : string) (actions : list JSValue) :
  Forall (λ a, readable a = true) actions →
  thrown (executeUIActions pathname actions) = None.
Proof.
  induction 1 as [|a rest Ha _ IH]; [done|].
  destruct (executeUIActions_cons pathname a rest Ha) as [_ ->].
  exact IH.
Qed.

(** The dispatcher throws exactly when the list has an unreadable action. *)
Lemma executeUIActions_thrown (pathname : string) (actions : list JSValue) :
  thrown (executeUIActions pathname actions) =
    if forallb readable actions then None else Some TypeError.
Proof.
  induction actions as [|a rest IH]; [done|].
  rewrite executeUIActions_step. cbn [forallb].
  destruct (readable a); [|done]. exact IH.
Qed.

(** What each kind of action does. *)
Lemma on_action_unknown_tag (pathname : string) (a : JSValue) :
  nullish a = false →
  tag_of a ≠ JStr "guide" →
  tag_of a ≠ JStr "fill_query" →
  tag_of a ≠ JStr "fill_sell_form" →
  trace (on_action pathname a) = [].
Proof.
  intros Ha H1%strict_eq_str_false H2%strict_eq_str_false H3%strict_eq_str_false.
  rewrite (on_action_eq _ _ Ha). unfold tagged. by rewrite H1, H2, H3.
Qed.

Lemma on_action_guide (pathname : string) (a r : JSValue) :
  nullish a = false →
  tag_of a = JStr "guide" →
  route (prop a "page") = inr r →
  trace (on_action pathname a) =
    if truthy r && negb (strict_eq_str r pathname) then [Navigate r] else [].
Proof.
  intros Ha Htag Hr. rewrite (on_action_eq _ _ Ha). unfold tagged.
  rewrite Htag, Hr. simpl. by destruct (truthy r && _).
Qed.

Lemma on_action_fill_query (pathname : string) (a : JSValue) :
  nullish a = false →
  tag_of a = JStr "fill_query" →
  trace (on_action pathname a) =
    [DispatchEvent "assistant-fill-query" (JObj [("query", prop a "query")])].
Proof.
  intros Ha Htag. rewrite (on_action_eq _ _ Ha). unfold tagged. by rewrite Htag.
Qed.

Lemma on_action_fill_sell_form (pathname : string) (a : JSValue) :
  nullish a = false →
  tag_of a = JStr "fill_sell_form" →
  trace (on_action pathname a) =
    [DispatchEvent "assistant-fill-sell-form" (prop a "fields")].
Proof.
  intros Ha Htag. rewrite (on_action_eq _ _ Ha). unfold tagged. by rewrite Htag.
Qed.

Lemma executeUIActions_app (pathname : string) (xs ys : list JSValue) :
  Forall (λ a, readable a = true) (xs ++ ys) →
  trace (executeUIActions pathname (xs ++ ys)) =
    trace (executeUIActions pathname xs) ++ trace (executeUIActions pathname ys).
Proof.
  intros H. pose proof H as [Hx Hy]%Forall_app.
  rewrite !executeUIActions_trace by done.
  by rewrite fmap_app, concat_app.
Qed.

(** What [PAGE_TO_ROUTE] holds is one of the seven routes or a member of
    [Object.prototype], or nothing. *)
Lemma route_values (page r : JSValue) :
  route page = inr r →
  (∃ p : PageContext, route (JStr (page_name p)) = inr r) ∨
  (∃ k, k ∈ object_prototype_keys ∧ r = JBuiltin k) ∨
  r = JUndefined.
Proof.
  unfold route at 1, obj_get, member, inherited.
  destruct (to_string page) as [e|key]; [done|].
  destruct (PAGE_TO_ROUTE !! key) as [v|] eqn:Hv.
  - intros [= <-]. left. apply elem_of_list_to_map_2 in Hv.
    rewrite !elem_of_cons, elem_of_nil in Hv.
    destruct_or!; try done; injection Hv as _ ->.
    + by exists home.
    + by exists dashboard.
    + by exists results.
    + by exists marketplace.
    + by exists marketplace_sell.
    + by exists marketplace_buy.
    + by exists about.
  - intros [= <-]. case_bool_decide; eauto.
Qed.

Lemma route_string_nonempty (page : JSValue) (target : string) :
  route page = inr (JStr target) → truthy (JStr target) = true.
Proof.
  intros [(p & Hp)|[(k & _ & [=])|[=]]]%route_values.
  rewrite route_of_page in Hp. injection Hp as <-. by destruct p.
Qed.

Lemma own_property_absent (props : list (string * JSValue)) (k : string) :
  k ∉ props.*1 → own_property props k = JUndefined.
Proof.
  induction props as [|[k' v] props IH]; simpl; [done|].
  rewrite not_elem_of_cons. intros [Hne Hrest].
  rewrite bool_decide_eq_false_2 by congruence. by apply IH.
Qed.

(** C7. For a guide action whose page the table routes to [target]: if
    [target] is the current path, dispatching it makes no call at all, so no
    navigation; if [target] differs from the current path, dispatching it
    makes exactly one call, the navigation to [target]. *)
Theorem guide_navigates_unless_current
    (pathname : string) (a : JSValue) (target : string) :
  nullish a = false →
  tag_of a = JStr "guide" →
  route (prop a "page") = inr (JStr target) →
  (target = pathname → trace (executeUIActions pathname [a]) = []) ∧
  (target ≠ pathname →
     trace (executeUIActions pathname [a]) = [Navigate (JStr target)]).
Proof.
  intros Ha Htag Hroute.
  destruct (executeUIActions_cons pathname a [] (readable_guide _ _ Ha Hroute))
    as [-> _].
  rewrite app_nil_r, (on_action_guide _ _ _ Ha Htag Hroute).
  rewrite (route_string_nonempty _ _ Hroute). simpl.
  split; intros H.
  - by rewrite bool_decide_eq_true_2.
  - by rewrite bool_decide_eq_false_2.
Qed.

Lemma on_action_cases_by_tag (pathname : string) (a : JSValue) :
  readable a = true →
  (tag_of a = JStr "guide" ∧
   (trace (on_action pathname a) = [] ∨
    ∃ to, trace (on_action pathname a) = [Navigate to])) ∨
  (tag_of a = JStr "fill_query" ∧
   trace (on_action pathname a) =
     [DispatchEvent "assistant-fill-query" (JObj [("query", prop a "query")])]) ∨
  (tag_of a = JStr "fill_sell_form" ∧
   trace (on_action pathname a) =
     [DispatchEvent "assistant-fill-sell-form" (prop a "fields")]) ∨
  (tag_of a ≠ JStr "guide" ∧ tag_of a ≠ JStr "fill_query" ∧
   tag_of a ≠ JStr "fill_sell_form" ∧ trace (on_action pathname a) = []).
Proof.
  intros Hr. pose proof (readable_nullish a Hr) as Ha.
  destruct (strict_eq_str (tag_of a) "guide") eqn:Hg;
    [apply strict_eq_str_true in Hg|apply strict_eq_str_false in Hg].
  { left. split; [done|].
    unfold readable, tagged in Hr. rewrite Ha, Hg in Hr. simpl in Hr.
    destruct (stringifiable_route _ Hr) as [r Hroute].
    rewrite (on_action_guide _ _ _ Ha Hg Hroute).
    destruct (truthy _ && _); eauto. }
  destruct (strict_eq_str (tag_of a) "fill_query") eqn:Hq;
    [apply strict_eq_str_true in Hq|apply strict_eq_str_false in Hq].
  { right; left. by rewrite (on_action_fill_query _ _ Ha Hq). }
  destruct (strict_eq_str (tag_of a) "fill_sell_form") eqn:Hs;
    [apply strict_eq_str_true in Hs|apply strict_eq_str_false in Hs].
  { right; right; left. by rewrite (on_action_fill_sell_form _ _ Ha Hs). }
  right; right; right. by rewrite (on_action_unknown_tag _ _ Ha Hg Hq Hs).
Qed.

Lemma fill_query_signals_of_action (pathname : string) (a : JSValue) :
  readable a = true →
  filter (λ e, is_signal "assistant-fill-query" e = true)
         (trace (on_action pathname a)) =
    if tagged "fill_query" a
    then [DispatchEvent "assistant-fill-query" (JObj [("query", prop a "query")])]
    else [].
Proof.
  intros Ha. unfold tagged.
  destruct (on_action_cases_by_tag pathname a Ha)
    as [[Ht [->|[to ->]]]|[[Ht ->]|[[Ht ->]|(Hg & Hq & Hs & ->)]]];
    try rewrite Ht; try done.
  by apply strict_eq_str_false in Hq as ->.
Qed.

Lemma fill_sell_form_signals_of_action (pathname : string) (a : JSValue) :
  readable a = true →
  filter (λ e, is_signal "assistant-fill-sell-form" e = true)
         (trace (on_action pathname a)) =
    if tagged "fill_sell_form" a
    then [DispatchEvent "assistant-fill-sell-form" (prop a "fields")]
    else [].
Proof.
  intros Ha. unfold tagged.
  destruct (on_action_cases_by_tag pathname a Ha)
    as [[Ht [->|[to ->]]]|[[Ht ->]|[[Ht ->]|(Hg & Hq & Hs & ->)]]];
    try rewrite Ht; try done.
  by apply strict_eq_str_false in Hs as ->.
Qed.

(** C10, as amended.  In a list of actions that the dispatcher can read to
    its end - no element is [null] or [undefined], and no [guide] has a page
    whose conversion to a property key throws - every action tagged
    [fill_query] makes exactly one [assistant-fill-query] event whose detail
    is [{ query: a.query }], and every action tagged [fill_sell_form] exactly
    one [assistant-fill-sell-form] event whose detail is [a.fields], in the
    order of the list; the payload is passed on as it is, and it is
    [undefined] when the action has no such property. *)
Theorem fill_signals_forwarded (pathname : string) (actions : list JSValue) :
  Forall (λ a, readable a = true) actions →
  filter (λ e, is_signal "assistant-fill-query" e = true)
         (trace (executeUIActions pathname actions)) =
    (λ a, DispatchEvent "assistant-fill-query" (JObj [("query", prop a "query")]))
      <$> filter (λ a, tagged "fill_query" a = true) actions
  ∧
  filter (λ e, is_signal "assistant-fill-sell-form" e = true)
         (trace (executeUIActions pathname actions)) =
    (λ a, DispatchEvent "assistant-fill-sell-form" (prop a "fields"))
      <$> filter (λ a, tagged "fill_sell_form" a = true) actions
  ∧
  (∀ props k, k ∉ props.*1 → prop (JObj props) k = JUndefined).
Proof.
  intros Hall. split; [|split]; [| |apply own_property_absent].
  - induction Hall as [|a rest Ha _ IH]; [done|].
    destruct (executeUIActions_cons pathname a rest Ha) as [-> _].
    rewrite filter_app, IH, filter_cons, fill_query_signals_of_action by done.
    destruct (tagged "fill_query" a) eqn:Htag.
    + by rewrite decide_True.
    + by rewrite decide_False.
  - induction Hall as [|a rest Ha _ IH]; [done|].
    destruct (executeUIActions_cons pathname a rest Ha) as [-> _].
    rewrite filter_app, IH, filter_cons, fill_sell_form_signals_of_action by done.
    destruct (tagged "fill_sell_form" a) eqn:Htag.
    + by rewrite decide_True.
    + by rewrite decide_False.
Qed.

(** C6, as amended.  On every list of actions that can be read - none is
    [null] or [undefined], and no [guide] has a page whose conversion to a
    property key throws (in parsed JSON: an object with a [toString]
    property of its own, alone or inside an array) - the dispatcher returns
    without throwing; what it does is what its callback does on each action
    alone, one after the other in the order of the list, so nothing an
    action does or fails to do keeps a later one from running.  An action
    with another tag than [guide], [fill_query] and [fill_sell_form] does
    nothing, and so does a [guide] whose page has no route.  A [fill_query]
    or [fill_sell_form] action is never dropped: its event goes out with
    whatever payload the action has, [undefined] when it has none.  On a
    list with an action that cannot be read the dispatcher throws. *)
Theorem dispatch_lenient (pathname : string) (actions : list JSValue) :
  (Forall (λ a, readable a = true) actions →
   thrown (executeUIActions pathname actions) = None ∧
   trace (executeUIActions pathname actions) =
     concat ((λ a, trace (on_action pathname a)) <$> actions) ∧
   (∀ before after, actions = before ++ after →
      trace (executeUIActions pathname actions) =
        trace (executeUIActions pathname before) ++
        trace (executeUIActions pathname after)) ∧
   (∀ a, a ∈ actions →
      (tag_of a ≠ JStr "guide" → tag_of a ≠ JStr "fill_query" →
       tag_of a ≠ JStr "fill_sell_form" → trace (on_action pathname a) = []) ∧
      (tag_of a = JStr "guide" → route (prop a "page") = inr JUndefined →
       trace (on_action pathname a) = []) ∧
      (tag_of a = JStr "fill_query" →
       trace (on_action pathname a) =
         [DispatchEvent "assistant-fill-query" (JObj [("query", prop a "query")])]) ∧
      (tag_of a = JStr "fill_sell_form" →
       trace (on_action pathname a) =
         [DispatchEvent "assistant-fill-sell-form" (prop a "fields")]))) ∧
  (∀ props k, k ∉ props.*1 → prop (JObj props) k = JUndefined) ∧
  (¬ Forall (λ a, readable a = true) actions →
   thrown (executeUIActions pathname actions) = Some TypeError).
Proof.
  split; [|split; [apply own_property_absent|]].
  - intros Hall. split; [|split; [|split]].
    + by apply executeUIActions_returns.
    + by apply executeUIActions_trace.
    + intros before after ->. by apply executeUIActions_app.
    + intros a Hin.
      assert (Ha : nullish a = false).
      { rewrite Forall_forall in Hall. by apply readable_nullish, Hall. }
      split; [|split; [|split]].
      * by apply on_action_unknown_tag.
      * intros Htag Hroute. by rewrite (on_action_guide _ _ _ Ha Htag Hroute).
      * by apply on_action_fill_query.
      * by apply on_action_fill_sell_form.
  - intros Hnot. rewrite executeUIActions_thrown.
    destruct (forallb readable actions) eqn:Hall; [|done].
    destruct Hnot. apply Forall_forall. intros a Ha.
    rewrite forallb_forall in Hall. by apply Hall, list_elem_of_In.
Qed.

(** ** The controller *)

Section ControllerFacts.

Variable t : string → string → string.

Lemma guarded_run (pathname : string) (xs : option (list JSValue)) :
  (if has_length xs
   then executeUIActions pathname (default [] xs)
   else mret tt) = executeUIActions pathname (default [] xs).
Proof. by destruct xs as [[|x xs]|]. Qed.

Lemma at_last_index_last (xs : list JSValue) (b : JSValue) :
  at_last_index (xs ++ [b]) = b.
Proof.
  unfold at_last_index.
  replace (length (xs ++ [b]) - 1) with (length xs)
    by (rewrite length_app; simpl; lia).
  by rewrite list_lookup_middle.
Qed.

Lemma derive_badge_last (data : AgentReply) :
  derive_badge data = default JNull (tools_called data ≫= last).
Proof.
  unfold derive_badge.
  destruct (tools_called data) as [xs|]; [|done].
  destruct xs as [|x xs _] using rev_ind; [done|].
  simpl. rewrite at_last_index_last, last_snoc.
  by destruct xs.
Qed.


(** The continuation of [send] on a parsed answer, when the dispatcher
    returns and when it throws. *)
Lemma resume_returns (p : Pending) (status : Z) (data : AgentReply) (w : World) :
  res_ok status = true →
  thrown (executeUIActions (seen_pathname p) (default [] (ui_actions data))) = None →
  resume t p (Responded status (JSONData data)) w =
    setLoading false
      (setMsgs (λ prev, prev ++ [{| role := assistant;
                                   text := reply data;
                                   badge := derive_badge data |}])
         (performed
            (trace (executeUIActions (seen_pathname p)
                      (default [] (ui_actions data))))
            (setThreadId (thread_id data) w))).
Proof.
  intros Hok Hret. unfold resume, try_block. rewrite Hok. simpl.
  rewrite guarded_run, Hret. done.
Qed.

Lemma resume_throws
    (p : Pending) (status : Z) (data : AgentReply) (w : World) (e : Exn) :
  res_ok status = true →
  thrown (executeUIActions (seen_pathname p) (default [] (ui_actions data))) = Some e →
  resume t p (Responded status (JSONData data)) w =
    setLoading false
      (catch_block t p
         (performed
            (trace (executeUIActions (seen_pathname p)
                      (default [] (ui_actions data))))
            (setThreadId (thread_id data) w))).
Proof.
  intros Hok Hthrow. unfold resume, try_block. rewrite Hok. simpl.
  rewrite guarded_run, Hthrow. done.
Qed.

Lemma resume_success (p : Pending) (status : Z) (data : AgentReply) (w : World) :
  res_ok status = true →
  Forall (λ a, readable a = true) (default [] (ui_actions data)) →
  resume t p (Responded status (JSONData data)) w =
    setLoading false
      (setMsgs (λ prev, prev ++ [{| role := assistant;
                                   text := reply data;
                                   badge := derive_badge data |}])
         (performed
            (trace (executeUIActions (seen_pathname p)
                      (default [] (ui_actions data))))
            (setThreadId (thread_id data) w))).
Proof.
  intros Hok Hall. apply resume_returns; [done|].
  by apply executeUIActions_returns.
Qed.

(** What the continuation leaves on a parsed answer, whatever its actions. *)
Lemma resume_parsed (p : Pending) (status : Z) (data : AgentReply) (w : World) :
  res_ok status = true →
  ∀ calls w',
    calls = executeUIActions (seen_pathname p) (default [] (ui_actions data)) →
    w' = resume t p (Responded status (JSONData data)) w →
    threadId w' = thread_id data ∧
    effects w' = effects w ++ trace calls ∧
    loading w' = false ∧
    msgs w' = msgs w ++
      [if thrown calls is None
       then {| role := assistant; text := reply data; badge := derive_badge data |}
       else error_message t (page_context_language (turn p))] ∧
    requested w' =
      (if navigation (trace calls) is Some to then Some to else requested w) ∧
    pathname w' = pathname w ∧ language w' = language w ∧
    input w' = input w ∧ transport w' = transport w ∧ inflight w' = inflight w.
Proof.
  intros Hok calls w' -> ->.
  destruct (thrown (executeUIActions (seen_pathname p) (default [] (ui_actions data))))
    as [e|] eqn:Hthrown.
  - by rewrite (resume_throws _ _ _ _ _ Hok Hthrown).
  - by rewrite (resume_returns _ _ _ _ Hok Hthrown).
Qed.

Lemma resume_shape (p : Pending) (o : FetchOutcome) (w : World) :
  loading (resume t p o w) = false ∧
  inflight (resume t p o w) = inflight w ∧
  transport (resume t p o w) = transport w.
Proof.
  unfold resume, try_block.
  destruct o as [|status body]; [done|].
  destruct (res_ok status); simpl; [|done].
  destruct body as [| |data]; [done..|].
  by destruct (thrown _).
Qed.

Lemma step_settle (i : nat) (p : Pending) (o : FetchOutcome) (w : World) :
  inflight w !! i = Some p →
  step t (Settle i o) w = resume t p o (setInflight (delete i (inflight w)) w).
Proof. intros H. simpl. by rewrite H. Qed.

(** A submit that passes the guard. *)
Lemma send_accepted (w : World) :
  loading w = false → trim (input w) ≠ "" →
  send w =
    {| msgs := msgs w ++ [{| role := user; text := JStr (trim (input w));
                             badge := JNull |}];
       input := ""; loading := true; threadId := threadId w;
       pathname := pathname w; language := language w;
       inflight := inflight w ++
         [{| turn := {| message := trim (input w);
                        turn_thread_id := threadId w;
                        current_page := page w;
                        page_context_language := language w |};
             seen_pathname := pathname w |}];
       transport := transport w ++
         [{| message := trim (input w);
             turn_thread_id := threadId w;
             current_page := page w;
             page_context_language := language w |}];
       effects := effects w;
       requested := requested w |}.
Proof.
  intros Hidle Htext. unfold send. rewrite Hidle. simpl.
  destruct (String.eqb_spec (trim (input w)) ""); [done|]. reflexivity.
Qed.

(** A submit that the guard turns away. *)
Lemma send_ignored (w : World) :
  loading w = true ∨ trim (input w) = "" → send w = w.
Proof.
  unfold send. intros [->| ->]; [|done].
  by rewrite orb_true_r.
Qed.

Lemma relocate_shape (path lang fresh : string) (w : World) :
  loading (relocate t path lang fresh w) = loading w ∧
  inflight (relocate t path lang fresh w) = inflight w.
Proof. unfold relocate. by case_match. Qed.

(** The single-flight invariant. *)
Lemma reachable_single_flight (w : World) :
  reachable t w → single_flight w.
Proof.
  induction 1 as [path lang id0 id1|e w _ IH].
  { by left. }
  destruct e as [s| |i o|fresh|path lang fresh]; simpl.
  - exact IH.
  - destruct IH as [[Hin Hld]|(p & Hin & Hld)].
    + destruct (decide (trim (input w) = "")) as [Hblank|Htext].
      * rewrite send_ignored by auto. by left.
      * rewrite send_accepted by done. right. simpl. rewrite Hin. eauto.
    + rewrite send_ignored by auto. right; eauto.
  - destruct (inflight w !! i) as [p|] eqn:Hi; [|exact IH].
    destruct (resume_shape p o (setInflight (delete i (inflight w)) w))
      as (Hld & Hin & _).
    left. rewrite Hin, Hld. split; [|done]. simpl.
    destruct IH as [[Hnil _]|(q & Hone & _)].
    + by rewrite Hnil in Hi.
    + rewrite Hone in Hi |- *. by destruct i.
  - exact IH.
  - destruct (relocate_shape path lang fresh w) as [Hld Hin].
    unfold single_flight. by rewrite Hld, Hin.
Qed.

Lemma resolve_shape (path : string) :
  (∃ s, resolve path = JStr s) ∨ (∃ k, resolve path = JBuiltin k).
Proof.
  unfold resolve, member, inherited, js_or.
  destruct (ROUTE_TO_PAGE !! _) as [v|].
  - destruct (truthy (JStr v)); eauto.
  - case_bool_decide; simpl; eauto.
Qed.

Lemma same_page_resolve (a b : string) :
  same_page (resolve a) (resolve b) = true ↔ resolve a = resolve b.
Proof.
  destruct (resolve_shape a) as [[x ->]|[x ->]],
           (resolve_shape b) as [[y ->]|[y ->]];
    simpl; rewrite ?bool_decide_eq_true; split; congruence.
Qed.

(** Whatever holds of every reachable state holds of the states the
    delivered events lead to. *)
Lemma delivered_reachable (w : World) : delivered t w → reachable t w.
Proof. induction 1; by constructor. Qed.

(** The render after a change of the page or of the language runs the
    effect. *)
Lemma relocate_changed (path lang fresh : string) (w : World) :
  resolve path ≠ page w ∨ lang ≠ language w →
  relocate t path lang fresh w = page_effect t fresh (setLocation path lang w).
Proof.
  intros Hchange. unfold relocate.
  replace (same_page _ _ && bool_decide (lang = language w)) with false; [done|].
  symmetry. apply andb_false_iff.
  destruct Hchange as [Hpage|Hlang].
  - left. apply not_true_is_false. unfold page at 1 2. simpl.
    by rewrite same_page_resolve.
  - right. by apply bool_decide_eq_false_2.
Qed.

Lemma relocate_unchanged (path lang fresh : string) (w : World) :
  resolve path = page w → lang = language w →
  relocate t path lang fresh w = setLocation path lang w.
Proof.
  intros Hpage ->. unfold relocate.
  replace (same_page _ _ && _) with true; [done|].
  symmetry. apply andb_true_iff. split.
  - unfold page. simpl. by apply same_page_resolve.
  - by apply bool_decide_eq_true_2.
Qed.

(** C2. In every reachable state, at most one request is in flight, and
    while one is, a submit changes nothing: no message, no queued turn, no
    call of the transport.  From an idle state with a non-blank input, two
    submits in a row make exactly one transport call, the second submit
    being a no-op. *)
Theorem submit_while_sending_is_noop (w : World) :
  reachable t w →
  length (inflight w) ≤ 1 ∧
  (inflight w ≠ [] → step t Submit w = w) ∧
  (loading w = false → trim (input w) ≠ "" →
     step t Submit (step t Submit w) = step t Submit w ∧
     ∃ call, transport (step t Submit (step t Submit w)) = transport w ++ [call]).
Proof.
  intros Hreach. pose proof (reachable_single_flight w Hreach) as Hsf.
  split; [|split].
  - destruct Hsf as [[-> _]|(p & -> & _)]; simpl; lia.
  - intros Hbusy. simpl. apply send_ignored. left.
    by destruct Hsf as [[Hnil _]|(p & _ & Hld)].
  - intros Hidle Htext. cbn [step].
    rewrite (send_accepted w Hidle Htext).
    rewrite send_ignored by (by left). eauto.
Qed.


(** C5, as amended.  When a request in flight gets a success status and a
    parsed body, the continuation makes the body's [thread_id] the thread
    identifier and runs the dispatcher on the body's action list, with the
    pathname the request was sent under.  If the dispatcher returns - as it
    does when every action can be read - one assistant message with the
    body's reply is appended, whose badge is the last entry of
    [tools_called] if there is one and [null] if the list is empty or
    missing; if it throws, the error message is appended instead.  The
    router is left with the last navigation the dispatcher asked for.  When
    it is left with none, the next request carries the body's [thread_id].
    When it is left with a path, the render at that path is the only event
    that can follow.  If the path resolves to the page the component is on,
    that render keeps the log and the thread identifier; if it resolves to
    another page, it replaces the log by the greeting of the new page and
    the thread identifier by a newly drawn one, which the next request then
    carries. *)
Theorem successful_turn
    (w : World) (i : nat) (p : Pending) (status : Z) (data : AgentReply) :
  inflight w !! i = Some p →
  res_ok status = true →
  let calls := executeUIActions (seen_pathname p) (default [] (ui_actions data)) in
  let w' := step t (Settle i (Responded status (JSONData data))) w in
  threadId w' = thread_id data ∧
  effects w' = effects w ++ trace calls ∧
  loading w' = false ∧
  (Forall (λ a, readable a = true) (default [] (ui_actions data)) →
     thrown calls = None) ∧
  (thrown calls = None →
     ∃ m, msgs w' = msgs w ++ [m] ∧
          role m = assistant ∧ text m = reply data ∧
          (∀ earlier b, tools_called data = Some (earlier ++ [b]) → badge m = b) ∧
          (tools_called data = Some [] ∨ tools_called data = None →
             badge m = JNull)) ∧
  (thrown calls ≠ None →
     msgs w' = msgs w ++ [error_message t (page_context_language (turn p))]) ∧
  requested w' =
    (if navigation (trace calls) is Some to then Some to else requested w) ∧
  (requested w' = None →
     ∀ s, trim s ≠ "" →
       ∃ next, transport (run t [Typed s; Submit] w') = transport w ++ [next] ∧
               message next = trim s ∧
               turn_thread_id next = thread_id data) ∧
  (∀ route fresh, requested w' = Some (JStr route) →
     (∀ e, enabled e w' → ∃ fresh', e = Relocate route (language w) fresh') ∧
     enabled (Relocate route (language w) fresh) w' ∧
     (resolve route = page w →
        let w'' := step t (Relocate route (language w) fresh) w' in
        threadId w'' = thread_id data ∧ msgs w'' = msgs w') ∧
     (resolve route ≠ page w →
        let w'' := step t (Relocate route (language w) fresh) w' in
        threadId w'' = JStr fresh ∧
        msgs w'' = [greeting t (language w) (resolve route)] ∧
        ∀ s, trim s ≠ "" →
          ∃ next, transport (run t [Typed s; Submit] w'') = transport w ++ [next] ∧
                  message next = trim s ∧
                  turn_thread_id next = JStr fresh)).
Proof.
  intros Hi Hok. cbv zeta.
  set (calls := executeUIActions (seen_pathname p) (default [] (ui_actions data))).
  set (w' := step t (Settle i (Responded status (JSONData data))) w).
  destruct (resume_parsed p status data (setInflight (delete i (inflight w)) w)
              Hok calls w' eq_refl (step_settle i p _ w Hi))
    as (Hth & Heff & Hld & Hmsgs & Hreq & Hpath & Hlang & Hinput & Htr & _).
  simpl in Hth, Heff, Hmsgs, Hreq, Hpath, Hlang, Hinput, Htr.
  split_and!; try done.
  - apply executeUIActions_returns.
  - intros Hret. rewrite Hret in Hmsgs. eexists. split; [exact Hmsgs|]. simpl.
    rewrite derive_badge_last. split; [done|]. split; [done|]. split.
    + intros earlier b ->. simpl. by rewrite last_snoc.
    + by intros [-> | ->].
  - intros Hthrow. rewrite Hmsgs. by destruct (thrown calls).
  - intros _ s Hs. cbn [run step].
    rewrite send_accepted by done. simpl. rewrite Htr, Hth. eauto.
  - intros route fresh Hroute. split_and!.
    + intros e. unfold enabled. rewrite Hroute.
      destruct e as [s| |j o|f|path lang f]; try done.
      rewrite Hlang. simpl. intros [-> ->]. eauto.
    + unfold enabled. by rewrite Hroute, Hlang.
    + intros Hpage. cbn [step].
      rewrite relocate_unchanged; [done| |done].
      unfold page. by rewrite Hpath.
    + intros Hpage. cbn [step].
      rewrite relocate_changed by (left; unfold page; by rewrite Hpath).
      split_and!; [done..|].
      intros s Hs. cbn [run step].
      rewrite send_accepted by done. simpl. rewrite Htr. eauto.
Qed.

(** C1, as amended.  A response is handled without looking at the current
    thread identifier.  When the request in flight was sent under [T1], the
    current identifier is another one, [T2], and the late answer arrives
    with a success status and a parsed body carrying [T1], the thread
    identifier becomes [T1] again, the actions of the body are dispatched,
    and one assistant message is appended to the current log: the reply of
    the body if the dispatcher returns, the error message if it throws. *)
Theorem late_response_is_applied
    (w : World) (i : nat) (p : Pending) (status : Z) (data : AgentReply)
    (T1 T2 : JSValue) :
  inflight w !! i = Some p →
  turn_thread_id (turn p) = T1 →
  threadId w = T2 →
  T1 ≠ T2 →
  res_ok status = true →
  thread_id data = T1 →
  let calls := executeUIActions (seen_pathname p) (default [] (ui_actions data)) in
  let w' := step t (Settle i (Responded status (JSONData data))) w in
  threadId w' = T1 ∧
  threadId w' ≠ threadId w ∧
  effects w' = effects w ++ trace calls ∧
  msgs w' = msgs w ++
    [if thrown calls is None
     then {| role := assistant; text := reply data; badge := derive_badge data |}
     else error_message t (page_context_language (turn p))].
Proof.
  intros Hi _ HT2 Hne Hok Hid. cbv zeta.
  set (calls := executeUIActions (seen_pathname p) (default [] (ui_actions data))).
  set (w' := step t (Settle i (Responded status (JSONData data))) w).
  destruct (resume_parsed p status data (setInflight (delete i (inflight w)) w)
              Hok calls w' eq_refl (step_settle i p _ w Hi))
    as (Hth & Heff & _ & Hmsgs & _).
  simpl in Hth, Heff, Hmsgs. rewrite Hid in Hth.
  split_and!; try done. rewrite Hth, HT2. done.
Qed.


End ControllerFacts.

(** * The statements on the sample conversation *)

Lemma sample_idle_reachable : reachable sample_t sample_idle.
Proof.
  exact (reachable_step sample_t (Typed "  3 BHK apartment in Pune ") _
           (reachable_mount sample_t "/dashboard" "en" "T0" "T1")).
Defined.

Lemma sample_sending_reachable : reachable sample_t sample_sending.
Proof.
  exact (reachable_step sample_t Submit _ sample_idle_reachable).
Defined.

(** C1, the claim as stated fails: thread [T1] is active and a request is
    sent under it, a reset makes the thread [T2], and then the answer
    carrying [T1] arrives.  A message is appended, an event is dispatched and
    the thread identifier is [T1] again. *)
Lemma stale_response_not_discarded :
  threadId sample_sending = JStr "T1" ∧
  turn_thread_id <$> (turn <$> inflight sample_sending) = [JStr "T1"] ∧
  threadId sample_after_reset = JStr "T2" ∧
  inflight sample_after_reset = inflight sample_sending ∧
  let late := Settle 0 (Responded 200 (JSONData (sample_reply "T1"))) in
  msgs (step sample_t late sample_after_reset) =
    msgs sample_after_reset ++
      [{| role := assistant; text := JStr "Done"; badge := JStr "fill_query_input" |}] ∧
  effects (step sample_t late sample_after_reset) =
    effects sample_after_reset ++
      [DispatchEvent "assistant-fill-query"
         (JObj [("query", JStr "3 BHK apartment in Pune")])] ∧
  threadId (step sample_t late sample_after_reset) = JStr "T1".
Proof. vm_compute. repeat split. Qed.

Lemma sample_request_in_flight : inflight sample_sending !! 0 = Some sample_request.
Proof. by vm_compute. Defined.

Lemma sample_request_after_reset :
  inflight sample_after_reset !! 0 = Some sample_request.
Proof. by vm_compute. Defined.

Lemma late_response_is_applied_witness :
  inflight sample_after_reset !! 0 = Some sample_request ∧
  turn_thread_id (turn sample_request) = JStr "T1" ∧
  threadId sample_after_reset = JStr "T2" ∧
  JStr "T1" ≠ JStr "T2" ∧
  res_ok 200 = true ∧
  thread_id (sample_reply "T1") = JStr "T1" ∧
  threadId (step sample_t (Settle 0 (Responded 200 (JSONData (sample_reply "T1"))))
              sample_after_reset) = JStr "T1".
Proof.
  assert (H1 : JStr "T1" ≠ JStr "T2") by discriminate.
  refine (conj sample_request_after_reset
            (conj eq_refl (conj eq_refl (conj H1 (conj eq_refl (conj eq_refl _)))))).
  exact (proj1
    (late_response_is_applied sample_t sample_after_reset 0 sample_request 200
       (sample_reply "T1") (JStr "T1") (JStr "T2")
       sample_request_after_reset eq_refl eq_refl H1 eq_refl eq_refl)).
Defined.

Lemma sample_actions_readable :
  Forall (λ a, readable a = true) sample_actions.
Proof. by repeat constructor. Defined.

Lemma submit_while_sending_is_noop_witness :
  (reachable sample_t sample_sending ∧
   inflight sample_sending ≠ [] ∧
   step sample_t Submit sample_sending = sample_sending) ∧
  (reachable sample_t sample_idle ∧
   loading sample_idle = false ∧
   trim (input sample_idle) ≠ "" ∧
   ∃ call, transport (step sample_t Submit (step sample_t Submit sample_idle)) =
             transport sample_idle ++ [call]).
Proof.
  assert (Hbusy : inflight sample_sending ≠ []) by by vm_compute.
  assert (Htext : trim (input sample_idle) ≠ "") by by vm_compute.
  split.
  - refine (conj sample_sending_reachable (conj Hbusy _)).
    exact (proj1 (proj2 (submit_while_sending_is_noop sample_t sample_sending
                           sample_sending_reachable)) Hbusy).
  - refine (conj sample_idle_reachable (conj eq_refl (conj Htext _))).
    exact (proj2 (proj2 (proj2 (submit_while_sending_is_noop sample_t sample_idle
                                  sample_idle_reachable)) eq_refl Htext)).
Defined.


Lemma sample_answered_requested : requested sample_answered = Some (JStr "/about").
Proof. by vm_compute. Defined.

Lemma sample_about_page : resolve "/about" ≠ page sample_sending.
Proof. by vm_compute. Defined.

Lemma successful_turn_witness :
  inflight sample_sending !! 0 = Some sample_request ∧
  res_ok 200 = true ∧
  threadId (step sample_t (Settle 0 (Responded 200 (JSONData (sample_reply "t2"))))
              sample_sending) = JStr "t2" ∧
  requested sample_answered = Some (JStr "/about") ∧
  resolve "/about" ≠ page sample_sending ∧
  threadId (step sample_t (Relocate "/about" (language sample_sending) "T9")
              sample_answered) = JStr "T9" ∧
  msgs (step sample_t (Relocate "/about" (language sample_sending) "T9")
          sample_answered) =
    [greeting sample_t (language sample_sending) (resolve "/about")].
Proof.
  refine (conj sample_request_in_flight (conj eq_refl (conj _
            (conj sample_answered_requested (conj sample_about_page _))))).
  - exact (proj1 (successful_turn sample_t sample_sending 0 sample_request 200
                    (sample_reply "t2") sample_request_in_flight eq_refl)).
  - destruct (successful_turn sample_t sample_sending 0 sample_request 200
                sample_guiding_reply sample_request_in_flight eq_refl)
      as (_ & _ & _ & _ & _ & _ & _ & _ & Hnav).
    destruct (Hnav "/about" "T9" sample_answered_requested) as (_ & _ & _ & Hrender).
    destruct (Hrender sample_about_page) as (Hth & Hm & _).
    exact (conj Hth Hm).
Defined.

(** C5, the claim as stated fails, twice.  An answer with a success status
    whose one action is a guide to the about page arrives on the dashboard:
    its thread identifier [t2] is adopted, but the dispatcher has asked for
    [/about], nothing but the render at [/about] can follow, and that render
    replaces the log - the reply with it - by the greeting of the about page
    and the thread identifier by a new one, which the next request carries
    in place of [t2].  And an answer with a success status whose action list
    has a [null] in it gets the error message into the log, not its
    reply. *)
Lemma navigating_reply_loses_thread :
  (delivered sample_t sample_rendered ∧
   res_ok 200 = true ∧
   threadId sample_answered = JStr "t2" ∧
   requested sample_answered = Some (JStr "/about") ∧
   enabled (Relocate "/about" "en" "T9") sample_answered ∧
   ¬ enabled (Typed "thanks") sample_answered ∧
   ¬ enabled Submit sample_answered ∧
   msgs sample_rendered = [greeting sample_t "en" (JStr "about")] ∧
   threadId sample_rendered = JStr "T9" ∧
   turn_thread_id
     <$> last (transport (run sample_t [Typed "thanks"; Submit] sample_rendered)) =
     Some (JStr "T9")) ∧
  (thread_id sample_broken_reply = JStr "t2" ∧
   reply sample_broken_reply = JStr "Done" ∧
   msgs (step sample_t (Settle 0 (Responded 200 (JSONData sample_broken_reply)))
           sample_sending) =
     msgs sample_sending ++ [error_message sample_t "en"]).
Proof.
  split; [split|].
  - apply (delivered_step sample_t (Relocate "/about" "en" "T9") sample_answered);
      [|by vm_compute].
    apply (delivered_step sample_t
             (Settle 0 (Responded 200 (JSONData sample_guiding_reply))) sample_sending);
      [|by vm_compute].
    apply (delivered_step sample_t Submit sample_idle); [|by vm_compute].
    apply (delivered_step sample_t (Typed "  3 BHK apartment in Pune ")
             (mount sample_t "/dashboard" "en" "T0" "T1")); [|by vm_compute].
    apply delivered_mount.
  - vm_compute. split_and!; try done; tauto.
  - by vm_compute.
Qed.

(** C6, the claim as stated fails: a [fill_query] action whose payload is
    malformed (it has no query) is not ignored; its event goes out, with
    [undefined] for the query. *)
Lemma malformed_fill_query_not_ignored :
  prop (JObj [("ui_action", JStr "fill_query")]) "query" = JUndefined ∧
  trace (executeUIActions "/dashboard" [JObj [("ui_action", JStr "fill_query")]]) =
    [DispatchEvent "assistant-fill-query" (JObj [("query", JUndefined)])] ∧
  trace (executeUIActions "/dashboard" [JObj [("ui_action", JStr "fill_query")]]) ≠ [].
Proof. by vm_compute. Qed.

Lemma dispatch_lenient_witness :
  Forall (λ a, readable a = true) sample_actions ∧
  thrown (executeUIActions "/dashboard" sample_actions) = None ∧
  trace (executeUIActions "/dashboard" sample_actions) =
    concat ((λ a, trace (on_action "/dashboard" a)) <$> sample_actions).
Proof.
  refine (conj sample_actions_readable _).
  destruct (proj1 (dispatch_lenient "/dashboard" sample_actions) sample_actions_readable)
    as (Hret & Htrace & _).
  exact (conj Hret Htrace).
Defined.

Lemma guide_navigates_unless_current_witness :
  (tag_of (guide_action "dashboard") = JStr "guide" ∧
   route (prop (guide_action "dashboard") "page") = inr (JStr "/dashboard") ∧
   trace (executeUIActions "/dashboard" [guide_action "dashboard"]) = []) ∧
  (tag_of (guide_action "about") = JStr "guide" ∧
   route (prop (guide_action "about") "page") = inr (JStr "/about") ∧
   "/about" ≠ "/dashboard" ∧
   trace (executeUIActions "/dashboard" [guide_action "about"]) =
     [Navigate (JStr "/about")]).
Proof.
  assert (Hne : "/about" ≠ "/dashboard") by discriminate.
  split.
  - refine (conj eq_refl (conj eq_refl _)).
    exact (proj1 (guide_navigates_unless_current "/dashboard"
                    (guide_action "dashboard") "/dashboard"
                    eq_refl eq_refl eq_refl) eq_refl).
  - refine (conj eq_refl (conj eq_refl (conj Hne _))).
    exact (proj2 (guide_navigates_unless_current "/dashboard"
                    (guide_action "about") "/about"
                    eq_refl eq_refl eq_refl) Hne).
Defined.



Lemma resolve_total_default_home_witness :
  is_pathname "/nonexistent" ∧
  ("/nonexistent" ∉ listed_paths) ∧
  resolve "/nonexistent" = JStr "home".
Proof.
  assert (Hun : "/nonexistent" ∉ listed_paths).
  { unfold listed_paths. rewrite !elem_of_cons, elem_of_nil.
    intros H. destruct_or!; discriminate || done. }
  refine (conj eq_refl (conj Hun _)).
  exact (proj2 (resolve_total_default_home "/nonexistent" eq_refl) Hun).
Defined.

(** C10, the claim as stated fails: a [fill_query] action that comes after
    an element the callback cannot read - a [null], or a guide whose page is
    an object with a [toString] property of its own - makes no event at
    all, because the dispatcher has stopped before it. *)
Lemma fill_signal_lost_after_unreadable :
  tagged "fill_query" (fill_query_action "2 BHK in Kharadi") = true ∧
  executeUIActions "/dashboard" [JNull; fill_query_action "2 BHK in Kharadi"] =
    ([], inl TypeError) ∧
  filter (λ e, is_signal "assistant-fill-query" e = true)
    (trace (executeUIActions "/dashboard"
              [JNull; fill_query_action "2 BHK in Kharadi"])) = [] ∧
  executeUIActions "/dashboard"
    [ JObj [("ui_action", JStr "guide"); ("page", JObj [("toString", JNum 1)])];
      fill_query_action "2 BHK in Kharadi" ] = ([], inl TypeError).
Proof. by vm_compute. Qed.

Lemma fill_signals_forwarded_witness :
  Forall (λ a, readable a = true) sample_actions ∧
  filter (λ e, is_signal "assistant-fill-query" e = true)
         (trace (executeUIActions "/dashboard" sample_actions)) =
    [ DispatchEvent "assistant-fill-query" (JObj [("query", JUndefined)]);
      DispatchEvent "assistant-fill-query" (JObj [("query", JStr "2 BHK in Kharadi")]) ] ∧
  filter (λ e, is_signal "assistant-fill-sell-form" e = true)
         (trace (executeUIActions "/dashboard" sample_actions)) =
    [ DispatchEvent "assistant-fill-sell-form" JUndefined ].
Proof.
  refine (conj sample_actions_readable _).
  destruct (fill_signals_forwarded "/dashboard" sample_actions sample_actions_readable)
    as (Hq & Hs & _).
  exact (conj Hq Hs).
Defined.

(** * Edge cases of the dispatcher, and the scenarios of the specification *)

(** An element that is [null] makes the callback throw on its first
    property read: the dispatcher stops there and the actions after it are
    not run.  Inside [send] the exception lands in the catch block: the log
    gets the error message instead of the reply, while the thread
    identifier of the answer has already been adopted. *)
Lemma null_action_throws :
  executeUIActions "/dashboard"
    [fill_query_action "first"; JNull; fill_query_action "second"] =
    ([DispatchEvent "assistant-fill-query" (JObj [("query", JStr "first")])],
     inl TypeError) ∧
  let data := {| reply := JStr "Done"; thread_id := JStr "t2";
                 tools_called := None;
                 ui_actions := Some [JNull; fill_query_action "second"] |} in
  let w := step sample_t (Settle 0 (Responded 200 (JSONData data))) sample_sending in
  msgs w = msgs sample_sending ++ [error_message sample_t "en"] ∧
  threadId w = JStr "t2" ∧
  effects w = [] ∧
  loading w = false.
Proof. by vm_compute. Qed.

(** A guide whose page is an object with a [toString] property of its own,
    alone or inside an array, makes the lookup in [PAGE_TO_ROUTE] throw; an
    object without one is looked up as ["[object Object]"], which has no
    route. *)
Lemma guide_to_unprintable_page_throws :
  to_string (JObj [("toString", JNum 1)]) = inl TypeError ∧
  to_string (JArr [JStr "about"; JObj [("toString", JNull)]]) = inl TypeError ∧
  to_string (JObj [("name", JStr "about")]) = inr "[object Object]" ∧
  to_string (JArr [JStr "about"]) = inr "about" ∧
  executeUIActions "/dashboard"
    [JObj [("ui_action", JStr "guide"); ("page", JObj [("toString", JNum 1)])]] =
    ([], inl TypeError) ∧
  executeUIActions "/dashboard"
    [JObj [("ui_action", JStr "guide"); ("page", JObj [("name", JStr "about")])]] =
    ([], inr tt) ∧
  executeUIActions "/dashboard"
    [JObj [("ui_action", JStr "guide"); ("page", JArr [JStr "about"])]] =
    ([Navigate (JStr "/about")], inr tt).
Proof. by vm_compute. Qed.

(** A page that names a member of [Object.prototype] is not in the table,
    yet the lookup finds that member, which is truthy and is not the current
    path: the dispatcher calls [navigate] with it. *)
Lemma guide_to_prototype_member :
  trace (executeUIActions "/dashboard" [guide_action "toString"]) =
    [Navigate (JBuiltin "toString")].
Proof. by vm_compute. Qed.

(** The dispatcher compares the target with the pathname its callback closed
    over.  Within one list that pathname stays the same, whatever the earlier
    actions asked for. *)
Lemma guide_twice_navigates_twice :
  trace (executeUIActions "/dashboard" [guide_action "about"; guide_action "about"]) =
    [Navigate (JStr "/about"); Navigate (JStr "/about")].
Proof. by vm_compute. Qed.

(** The scenarios of the specification, run on the model. *)
Example badge_is_last_tool :
  derive_badge (sample_reply "t2") = JStr "fill_query_input".
Proof. reflexivity. Qed.

Example end_to_end_success :
  let w := step sample_t (Settle 0 (Responded 200 (JSONData (sample_reply "t2"))))
             sample_sending in
  msgs w = msgs sample_idle ++
    [ {| role := user; text := JStr "3 BHK apartment in Pune"; badge := JNull |};
      {| role := assistant; text := JStr "Done"; badge := JStr "fill_query_input" |} ] ∧
  effects w = [DispatchEvent "assistant-fill-query"
                 (JObj [("query", JStr "3 BHK apartment in Pune")])] ∧
  threadId w = JStr "t2" ∧ loading w = false ∧ inflight w = [].
Proof. by vm_compute. Qed.

Example end_to_end_failure :
  let w := step sample_t (Settle 0 (Responded 500 JSONNull)) sample_sending in
  msgs w = msgs sample_idle ++
    [ {| role := user; text := JStr "3 BHK apartment in Pune"; badge := JNull |};
      error_message sample_t "en" ] ∧
  effects w = [] ∧
  threadId w = JStr "T1" ∧ loading w = false ∧ inflight w = [].
Proof. by vm_compute. Qed.

(** * Further properties of the assistant *)

(** ** Routes and guides *)

Lemma resolve_unlisted (path : string) :
  is_pathname path → path ∉ listed_paths → resolve path = JStr "home".
Proof.
  intros Hpath Hun. unfold resolve, member.
  by rewrite (unlisted_path_lookup _ Hun), (pathname_not_inherited _ Hpath).
Qed.

Lemma listed_paths_dec (path : string) :
  path ∈ listed_paths ∨ path ∉ listed_paths.
Proof. destruct (decide (path ∈ listed_paths)); auto. Qed.

Lemma route_resolve_fixes_listed_paths_aux (path : string) :
  is_pathname path →
  (path ∈ listed_paths → route (resolve path) = inr (JStr path)) ∧
  (path ∉ listed_paths → route (resolve path) = inr (JStr "/")).
Proof.
  intros Hpath. split.
  - intros Hin. by destruct (route_resolve_roundtrip _ Hin) as (p & -> & Hp).
  - intros Hun. by rewrite (resolve_unlisted _ Hpath Hun).
Qed.

(** X1. Routing the page a pathname resolves to gives the pathname back
    exactly when the pathname is one of the seven the table lists; every
    other pathname is sent to the route of [home]. *)
Theorem route_resolve_fixes_listed (path : string) :
  is_pathname path →
  (route (resolve path) = inr (JStr path) ↔ path ∈ listed_paths) ∧
  (path ∉ listed_paths → route (resolve path) = inr (JStr "/")).
Proof.
  intros Hpath.
  destruct (route_resolve_fixes_listed_paths_aux path Hpath) as [Hin Hout].
  split; [|exact Hout]. split; [|exact Hin].
  intros Hfix. destruct (listed_paths_dec path) as [H|Hun]; [done|].
  rewrite (Hout Hun) in Hfix. injection Hfix as <-.
  unfold listed_paths. set_solver.
Qed.

(** X2. A guide to the very page the current pathname resolves to does
    nothing when the pathname is listed in the table; on any other pathname
    (say [/login], which resolves to [home]) it navigates, to [/]. *)
Theorem guide_to_resolved_page (path : string) :
  is_pathname path →
  trace (executeUIActions path
           [JObj [("ui_action", JStr "guide"); ("page", resolve path)]]) =
    if decide (path ∈ listed_paths) then [] else [Navigate (JStr "/")].
Proof.
  intros Hpath.
  set (a := JObj [("ui_action", JStr "guide"); ("page", resolve path)]).
  assert (Ha : nullish a = false) by done.
  assert (Hpage : prop a "page" = resolve path) by done.
  destruct (route_resolve_fixes_listed_paths_aux path Hpath) as [Hin Hout].
  destruct (decide (path ∈ listed_paths)) as [H|H].
  - pose proof (Hin H) as Hroute. rewrite <-Hpage in Hroute.
    destruct (executeUIActions_cons path a [] (readable_guide _ _ Ha Hroute))
      as [-> _].
    rewrite app_nil_r, (on_action_guide path a _ Ha eq_refl Hroute). simpl.
    rewrite bool_decide_eq_true_2 by done. by rewrite andb_false_r.
  - pose proof (Hout H) as Hroute. rewrite <-Hpage in Hroute.
    destruct (executeUIActions_cons path a [] (readable_guide _ _ Ha Hroute))
      as [-> _].
    rewrite app_nil_r, (on_action_guide path a _ Ha eq_refl Hroute). simpl.
    rewrite bool_decide_eq_false_2; [done|].
    intros <-. apply H. by constructor.
Qed.

(** ** What the dispatcher can and cannot do, on any list *)

Lemma executeUIActions_calls (pathname : string) (actions : list JSValue) (e : Effect) :
  e ∈ trace (executeUIActions pathname actions) →
  ∃ a, a ∈ actions ∧ readable a = true ∧ e ∈ trace (on_action pathname a).
Proof.
  induction actions as [|a rest IH]; [by intros ?%elem_of_nil|].
  rewrite executeUIActions_step_trace. destruct (readable a) eqn:Ha.
  - rewrite elem_of_app. intros [He|He].
    + exists a. split_and!; [left|done..].
    + destruct (IH He) as (b & Hb & ?). exists b. split; [by right|done].
  - by intros ?%elem_of_nil.
Qed.

(** X3. Whatever the list of actions - unreadable elements included - the
    dispatcher never asks for a navigation to the pathname it holds as the
    current one, and every navigation it asks for goes to what
    [PAGE_TO_ROUTE] holds for the action's page: one of the seven routes, or
    a member of [Object.prototype] when the page is named like one. *)
Theorem navigation_targets (pathname : string) (actions : list JSValue) (to : JSValue) :
  Navigate to ∈ trace (executeUIActions pathname actions) →
  to ≠ JStr pathname ∧
  ((∃ p : PageContext, route (JStr (page_name p)) = inr to) ∨
   (∃ k, k ∈ object_prototype_keys ∧ to = JBuiltin k)).
Proof.
  intros (a & _ & Hr & Hin)%executeUIActions_calls.
  pose proof (readable_nullish a Hr) as Ha.
  destruct (on_action_cases_by_tag pathname a Hr)
    as [[Ht _]|[[_ Hq]|[[_ Hs]|(_ & _ & _ & Hn)]]].
  2: { rewrite Hq in Hin. by apply list_elem_of_singleton in Hin. }
  2: { rewrite Hs in Hin. by apply list_elem_of_singleton in Hin. }
  2: { rewrite Hn in Hin. by apply elem_of_nil in Hin. }
  unfold readable, tagged in Hr.
  rewrite Ha, ((proj2 (strict_eq_str_true _ _)) Ht) in Hr. simpl in Hr.
  destruct (stringifiable_route _ Hr) as [r Hroute].
  rewrite (on_action_guide _ _ _ Ha Ht Hroute) in Hin.
  destruct (truthy r && negb (strict_eq_str r pathname)) eqn:Hguard;
    [|by apply elem_of_nil in Hin].
  apply list_elem_of_singleton in Hin. injection Hin as ->.
  apply andb_true_iff in Hguard as [Htruthy Hne].
  apply negb_true_iff, strict_eq_str_false in Hne. split; [done|].
  destruct (route_values _ _ Hroute) as [Hp|[Hk|Hu]]; [by left|by right|].
  by rewrite Hu in Htruthy.
Qed.

(** X4. Each action causes at most one call: the dispatcher makes no more
    calls than the list has actions, and every event it dispatches is an
    [assistant-fill-query] or an [assistant-fill-sell-form]. *)
Theorem dispatcher_calls_bounded (pathname : string) (actions : list JSValue) :
  length (trace (executeUIActions pathname actions)) ≤ length actions ∧
  (∀ type detail,
     DispatchEvent type detail ∈ trace (executeUIActions pathname actions) →
     type = "assistant-fill-query" ∨ type = "assistant-fill-sell-form").
Proof.
  split.
  - induction actions as [|a rest IH]; [done|].
    rewrite executeUIActions_step_trace.
    destruct (readable a) eqn:Ha; simpl; [|lia].
    rewrite length_app.
    destruct (on_action_cases_by_tag pathname a Ha)
      as [[_ [->|[to ->]]]|[[_ ->]|[[_ ->]|(_ & _ & _ & ->)]]]; simpl; lia.
  - intros type detail (a & _ & Ha & Hin)%executeUIActions_calls.
    destruct (on_action_cases_by_tag pathname a Ha)
      as [[_ [Hg|[to Hg]]]|[[_ Hq]|[[_ Hs]|(_ & _ & _ & Hn)]]].
    + rewrite Hg in Hin. by apply elem_of_nil in Hin.
    + rewrite Hg in Hin. by apply list_elem_of_singleton in Hin.
    + rewrite Hq in Hin. apply list_elem_of_singleton in Hin.
      injection Hin as -> _. by left.
    + rewrite Hs in Hin. apply list_elem_of_singleton in Hin.
      injection Hin as -> _. by right.
    + rewrite Hn in Hin. by apply elem_of_nil in Hin.
Qed.

Lemma dispatcher_stops_at_null_aux
    (pathname : string) (before after : list JSValue) (a : JSValue) :
  Forall (λ a, nullish a = false) before →
  nullish a = true →
  executeUIActions pathname (before ++ a :: after) =
    (trace (executeUIActions pathname before), inl TypeError).
Proof.
  intros Hbefore Ha. induction Hbefore as [|b before Hb _ IH]; simpl app.
  - by rewrite executeUIActions_step, (nullish_unreadable _ Ha).
  - rewrite executeUIActions_step, executeUIActions_step_trace, IH.
    by destruct (readable b).
Qed.

(** X5. An element that is [null] stops the dispatcher: the actions before
    it have been run, the callback throws a [TypeError] on it, and none of
    the actions after it is run, whatever they are. *)
Theorem dispatcher_stops_at_null (pathname : string) (before after : list JSValue) (a : JSValue) :
  Forall (λ a, nullish a = false) before →
  nullish a = true →
  executeUIActions pathname (before ++ a :: after) =
    (trace (executeUIActions pathname before), inl TypeError).
Proof.
  intros Hbefore Ha. by apply dispatcher_stops_at_null_aux.
Qed.

Lemma readable_prefix_all (actions : list JSValue) :
  Forall (λ a, readable a = true) (readable_prefix actions).
Proof.
  induction actions as [|a rest IH]; simpl; [done|].
  destruct (readable a) eqn:Ha; by constructor.
Qed.

Lemma readable_prefix_id (actions : list JSValue) :
  readable_prefix actions = actions ↔ forallb readable actions = true.
Proof.
  induction actions as [|a rest IH]; simpl; [done|].
  destruct (readable a); simpl; [|done].
  rewrite <-IH. split; [by intros [= ->]|by intros ->].
Qed.

(** X28. On any list of actions the dispatcher does what it does on the
    actions before the first one its callback cannot read - an element that
    is [null] or [undefined], or a guide whose page does not convert to a
    property key - one action after the other; it returns if there is no
    such action, and throws a [TypeError] at the first one otherwise, without
    running any action after it. *)
Theorem dispatcher_runs_readable_prefix (pathname : string) (actions : list JSValue) :
  trace (executeUIActions pathname actions) =
    concat ((λ a, trace (on_action pathname a)) <$> readable_prefix actions) ∧
  trace (executeUIActions pathname actions) =
    trace (executeUIActions pathname (readable_prefix actions)) ∧
  (thrown (executeUIActions pathname actions) = None ↔
     readable_prefix actions = actions) ∧
  (readable_prefix actions ≠ actions →
     thrown (executeUIActions pathname actions) = Some TypeError ∧
     ∃ a after, actions = readable_prefix actions ++ a :: after ∧
                readable a = false ∧
                on_action pathname a = ([], inl TypeError)).
Proof.
  assert (Htrace : trace (executeUIActions pathname actions) =
            concat ((λ a, trace (on_action pathname a)) <$> readable_prefix actions)).
  { induction actions as [|a rest IH]; [done|].
    rewrite executeUIActions_step_trace. simpl.
    destruct (readable a); [|done]. simpl. by rewrite IH. }
  assert (Hsplit : readable_prefix actions = actions ∨
            ∃ a after, actions = readable_prefix actions ++ a :: after ∧
                       readable a = false).
  { clear Htrace. induction actions as [|a rest IH]; [by left|]. simpl.
    destruct (readable a) eqn:Ha.
    - destruct IH as [->|(b & after & Heq & Hb)]; [by left|].
      right. exists b, after. split; [|done]. simpl. by rewrite <-Heq.
    - right. by exists a, rest. }
  assert (Hthrown : thrown (executeUIActions pathname actions) = None ↔
            readable_prefix actions = actions).
  { rewrite executeUIActions_thrown, readable_prefix_id.
    by destruct (forallb readable actions). }
  split_and!; [done| |done|].
  - rewrite Htrace. symmetry. apply executeUIActions_trace, readable_prefix_all.
  - intros Hne. destruct Hsplit as [?|(a & after & Heq & Ha)]; [done|]. split.
    + rewrite executeUIActions_thrown.
      destruct (forallb readable actions) eqn:Hall; [|done].
      exfalso. apply Hne, Hthrown. by rewrite executeUIActions_thrown, Hall.
    + exists a, after. split_and!; [done..|]. by apply on_action_throws.
Qed.

(** ** The controller, on every outcome and every run *)

Section ControllerRuns.

Variable t : string → string → string.

Lemma resume_appends (p : Pending) (o : FetchOutcome) (w : World) :
  (∃ m, msgs (resume t p o w) = msgs w ++ [m] ∧ role m = assistant) ∧
  input (resume t p o w) = input w ∧
  pathname (resume t p o w) = pathname w ∧
  language (resume t p o w) = language w ∧
  effects w `prefix_of` effects (resume t p o w).
Proof.
  unfold resume, try_block.
  destruct o as [|status body].
  { split_and!; try done. by eexists. }
  destruct (res_ok status); simpl.
  2: { split_and!; try done. by eexists. }
  destruct body as [| |data].
  1,2: split_and!; try done; by eexists.
  destruct (thrown _); simpl.
  - split_and!; try done; [by eexists|by apply prefix_app_r].
  - split_and!; try done; [by eexists|by apply prefix_app_r].
Qed.

(** X6. However the fetch of a request in flight settles - rejected, any
    status, any body, readable actions or not - its continuation appends
    exactly one message, an assistant message, takes the request off the
    list, leaves the input as typed and leaves the component idle; in a
    reachable state nothing is in flight any more. *)
Theorem settle_appends_one_message
    (w : World) (i : nat) (p : Pending) (o : FetchOutcome) :
  reachable t w →
  inflight w !! i = Some p →
  let w' := step t (Settle i o) w in
  (∃ m, msgs w' = msgs w ++ [m] ∧ role m = assistant) ∧
  loading w' = false ∧
  inflight w' = [] ∧
  input w' = input w ∧
  transport w' = transport w.
Proof.
  intros Hreach Hi. cbv zeta. rewrite (step_settle t i p o w Hi).
  set (w0 := setInflight (delete i (inflight w)) w).
  destruct (resume_appends p o w0) as (Hm & Hin & _).
  destruct (resume_shape t p o w0) as (Hld & Hfl & Htr).
  split_and!; try done.
  rewrite Hfl. simpl.
  destruct (reachable_single_flight t w Hreach) as [[Hnil _]|(q & Hone & _)].
  - by rewrite Hnil in Hi.
  - rewrite Hone in Hi |- *. by destruct i.
Qed.

Lemma relocate_msgs (path lang fresh : string) (w : World) :
  msgs (relocate t path lang fresh w) = msgs w ∨
  msgs (relocate t path lang fresh w) = [greeting t lang (resolve path)].
Proof. unfold relocate. case_match; auto. Qed.

(** X7. In every reachable state the log is not empty and begins with a
    greeting: an assistant message without badge whose text is the
    translation of [assistant.greetings.<page>] for some page and
    language. *)
Theorem log_starts_with_greeting (w : World) :
  reachable t w →
  ∃ lang page rest, msgs w = greeting t lang page :: rest.
Proof.
  induction 1 as [path lang id0 id1|e w Hreach (lang & pg & rest & IH)].
  { by eexists _, _, []. }
  destruct e as [s| |i o|fresh|path lang' fresh]; simpl.
  - eauto.
  - unfold send. case_match; [eauto|]. simpl. rewrite IH. eauto.
  - destruct (inflight w !! i) as [p|]; [|eauto].
    destruct (resume_appends p o (setInflight (delete i (inflight w)) w))
      as ((m & -> & _) & _). simpl. rewrite IH. eauto.
  - by eexists _, _, [].
  - destruct (relocate_msgs path lang' fresh w) as [-> | ->]; [eauto|].
    by eexists _, _, [].
Qed.

(** X9. A reset does not end the turn in flight.  In a reachable state
    with a request in flight, after a click on reset the component is still
    loading and the request is still in flight, so whatever is typed next, a
    submit is still ignored; only the settling of that request makes the
    component idle again. *)
Theorem reset_keeps_turn_in_flight (w : World) (fresh : string) :
  reachable t w →
  inflight w ≠ [] →
  let w' := step t (Reset fresh) w in
  loading w' = true ∧
  textarea_disabled w' = true ∧
  inflight w' = inflight w ∧
  input w' = input w ∧
  (∀ s, step t Submit (step t (Typed s) w') = step t (Typed s) w') ∧
  (∀ o, loading (step t (Settle 0 o) w') = false).
Proof.
  intros Hreach Hbusy. cbv zeta.
  destruct (reachable_single_flight t w Hreach) as [[Hnil _]|(p & Hone & Hld)];
    [done|].
  split_and!; try done.
  - intros s. simpl. apply send_ignored. by left.
  - intros o. simpl. rewrite Hone. simpl.
    by destruct (resume_shape t p o
                   (setInflight [] (reset t fresh w))) as (-> & _).
Qed.

(** X10. A change of location that changes neither the page nor the
    language - between two pathnames that resolve to the same page, such as
    two that the table does not list - keeps the conversation: the log and
    the thread identifier stay as they are, and no identifier is drawn. *)
Theorem relocate_within_page (w : World) (path lang fresh : string) :
  resolve path = page w →
  lang = language w →
  let w' := step t (Relocate path lang fresh) w in
  msgs w' = msgs w ∧ threadId w' = threadId w ∧
  pathname w' = path ∧ page w' = page w ∧
  input w' = input w ∧ loading w' = loading w ∧ inflight w' = inflight w.
Proof.
  intros Hpage ->. cbv zeta. simpl. unfold relocate.
  replace (same_page _ _ && _) with true; [done|].
  symmetry. apply andb_true_iff. split.
  - unfold page. simpl. by apply same_page_resolve.
  - by apply bool_decide_eq_true_2.
Qed.

(** X11. The send button and the guard of [send] agree: the render disables
    the button in exactly the states in which [send] would return without
    doing anything; when the button is enabled a submit posts one request,
    appends the user's message and empties the input. *)
Theorem send_button_matches_guard (w : World) :
  (send_disabled w = true ↔ step t Submit w = w) ∧
  (send_disabled w = false →
     length (transport (step t Submit w)) = S (length (transport w)) ∧
     length (msgs (step t Submit w)) = S (length (msgs w)) ∧
     input (step t Submit w) = "" ∧
     send_disabled (step t Submit w) = true).
Proof.
  assert (Hblank : negb (truthy (JStr (trim (input w)))) = true ↔ trim (input w) = "").
  { simpl. rewrite negb_involutive. apply String.eqb_eq. }
  assert (Hon : send_disabled w = false →
            loading w = false ∧ trim (input w) ≠ "").
  { unfold send_disabled. intros [Hld Hb]%orb_false_iff. split; [done|].
    intros Hs. apply Hblank in Hs. congruence. }
  split; [split|].
  - unfold send_disabled. intros [Hld|Hb%Hblank]%orb_true_iff;
      simpl; apply send_ignored; auto.
  - intros Hsame. apply not_false_iff_true. intros Hd.
    destruct (Hon Hd) as [Hld Htext]. simpl in Hsame.
    rewrite (send_accepted w Hld Htext) in Hsame.
    apply (f_equal (λ x, length (transport x))) in Hsame. simpl in Hsame.
    rewrite length_app in Hsame. simpl in Hsame. lia.
  - intros Hd. destruct (Hon Hd) as [Hld Htext]. simpl.
    rewrite (send_accepted w Hld Htext). simpl.
    rewrite !length_app. simpl. split_and!; try done; lia.
Qed.

Lemma step_appends (e : Event) (w : World) :
  transport w `prefix_of` transport (step t e w) ∧
  effects w `prefix_of` effects (step t e w) ∧
  length (transport (step t e w)) =
    length (transport w) + (if is_submit e && negb (send_disabled w) then 1 else 0) ∧
  (if e is Settle _ _ then True else effects (step t e w) = effects w).
Proof.
  destruct e as [s| |i o|fresh|path lang fresh]; simpl.
  - split_and!; try done; lia.
  - unfold send, send_disabled. rewrite (orb_comm (loading w)).
    destruct (negb _ || loading w); simpl.
    + split_and!; try done; lia.
    + split_and!; try done; [by apply prefix_app_r|]. by rewrite length_app.
  - destruct (inflight w !! i) as [p|]; [|split_and!; try done; lia].
    set (w0 := setInflight (delete i (inflight w)) w).
    destruct (resume_appends p o w0) as (_ & _ & _ & _ & He).
    destruct (resume_shape t p o w0) as (_ & _ & Htr).
    rewrite Htr. split_and!; try done; simpl; lia.
  - split_and!; try done; lia.
  - unfold relocate. case_match; split_and!; try done; simpl; lia.
Qed.

(** X12. Both logs of outside calls only ever grow, over any run of
    events: what was posted and what was dispatched stays, in order.  A
    request is posted only by a submit, so a run posts at most as many
    requests as it has submits; and a run without any settling dispatches
    nothing to the host page. *)
Theorem logs_are_append_only (es : list Event) (w : World) :
  transport w `prefix_of` transport (run t es w) ∧
  effects w `prefix_of` effects (run t es w) ∧
  length (transport (run t es w)) ≤
    length (transport w) + length (filter (λ e, is_submit e = true) es) ∧
  (Forall (λ e, if e is Settle _ _ then False else True) es →
     effects (run t es w) = effects w).
Proof.
  revert w. induction es as [|e es IH]; intros w.
  { simpl. split_and!; try done. lia. }
  destruct (IH (step t e w)) as (Ht & He & Hlen & Hquiet).
  destruct (step_appends e w) as (Ht1 & He1 & Hlen1 & Hq1).
  cbn [run]. split_and!.
  - by etrans.
  - by etrans.
  - rewrite filter_cons. case_decide as Hs; simpl.
    + destruct (is_submit e && negb (send_disabled w)); lia.
    + apply not_true_is_false in Hs. rewrite Hs in Hlen1. simpl in Hlen1. lia.
  - intros Hall. inversion Hall as [|?? Hhd Htl]; subst.
    rewrite (Hquiet Htl). by destruct e.
Qed.

End ControllerRuns.

(** ** [trim] *)

Abbreviation chars := String.list_ascii_of_string.

Lemma chars_inj (s1 s2 : string) : chars s1 = chars s2 → s1 = s2.
Proof.
  intros H. rewrite <-(String.string_of_list_ascii_of_string s1),
    <-(String.string_of_list_ascii_of_string s2). by rewrite H.
Qed.

Lemma chars_app (s1 s2 : string) : chars (s1 +:+ s2) = chars s1 ++ chars s2.
Proof. induction s1 as [|c s1 IH]; simpl; [done|]. by rewrite IH. Qed.

Lemma chars_rev_app (s1 s2 : string) :
  chars (String.rev_app s1 s2) = reverse (chars s1) ++ chars s2.
Proof.
  revert s2. induction s1 as [|c s1 IH]; intros s2; simpl; [done|].
  by rewrite IH, reverse_cons, <-app_assoc.
Qed.

Lemma chars_rev (s : string) : chars (String.rev s) = reverse (chars s).
Proof. unfold String.rev. by rewrite chars_rev_app, app_nil_r. Qed.

Lemma chars_of_list (l : list ascii) : chars (String.string_of_list_ascii l) = l.
Proof. apply String.list_ascii_of_string_of_list_ascii. Qed.

Lemma chars_trim (s : string) :
  chars (trim s) = trim_end (trim_start (chars s)).
Proof. apply chars_of_list. Qed.

Lemma white_space_nonempty (w : list ascii) : w ∈ white_space → w ≠ [].
Proof.
  intros Hw ->. unfold white_space in Hw.
  repeat (apply elem_of_cons in Hw as [Hw|Hw]; [discriminate|]).
  by apply elem_of_nil in Hw.
Qed.

(** No white-space character begins another one. *)
Lemma white_space_prefix_free (w w' : list ascii) :
  w ∈ white_space → w' ∈ white_space → w `prefix_of` w' → w = w'.
Proof.
  assert (Hall : forallb (λ w, forallb (λ w',
             implb (bool_decide (w `prefix_of` w')) (bool_decide (w = w')))
             white_space) white_space = true) by by vm_compute.
  intros Hw%list_elem_of_In Hw'%list_elem_of_In Hp.
  rewrite forallb_forall in Hall. specialize (Hall w Hw).
  rewrite forallb_forall in Hall. specialize (Hall w' Hw').
  rewrite bool_decide_eq_true_2 in Hall by done.
  by apply bool_decide_eq_true in Hall.
Qed.

Lemma space_is_white (c : ascii) : is_space c = true → [c] ∈ white_space.
Proof.
  destruct c as [[] [] [] [] [] [] [] []]; try discriminate; intros _.
  all: by repeat constructor.
Qed.

Lemma iter_fixed {A} (f : A → A) (x : A) (n : nat) :
  f x = x → Nat.iter n f x = x.
Proof.
  intros H. induction n as [|n IH]; [done|].
  by rewrite Nat.iter_succ, IH.
Qed.

Lemma clean_start_nil : clean_start [].
Proof.
  intros w Hw Hp. apply prefix_nil_inv in Hp.
  by apply (white_space_nonempty w).
Qed.

Lemma clean_end_nil : clean_end [].
Proof.
  intros w Hw Hp. apply suffix_nil_inv in Hp.
  by apply (white_space_nonempty w).
Qed.

(** One round at the front: nothing to remove, or one character less. *)
Lemma strip_start_cases (l : list ascii) :
  (strip_start l = l ∧ clean_start l) ∨
  (∃ w, w ∈ white_space ∧ l = w ++ strip_start l).
Proof.
  unfold strip_start.
  destruct (List.find _ white_space) as [w|] eqn:Hf.
  - right. apply find_some in Hf as [Hin Hp].
    apply bool_decide_eq_true in Hp as [k ->].
    exists w. split; [by apply list_elem_of_In|]. by rewrite drop_app_length.
  - left. split; [done|]. intros w Hw%list_elem_of_In Hp.
    pose proof (find_none _ _ Hf w Hw) as Hn. simpl in Hn.
    by apply bool_decide_eq_false in Hn.
Qed.

Lemma strip_end_cases (l : list ascii) :
  (strip_end l = l ∧ clean_end l) ∨
  (∃ w, w ∈ white_space ∧ l = strip_end l ++ w).
Proof.
  unfold strip_end.
  destruct (List.find _ white_space) as [w|] eqn:Hf.
  - right. apply find_some in Hf as [Hin Hp].
    apply bool_decide_eq_true in Hp as [k ->].
    exists w. split; [by apply list_elem_of_In|].
    rewrite take_app_length'; [done|]. rewrite length_app. lia.
  - left. split; [done|]. intros w Hw%list_elem_of_In Hp.
    pose proof (find_none _ _ Hf w Hw) as Hn. simpl in Hn.
    by apply bool_decide_eq_false in Hn.
Qed.

Lemma iter_strip_start (n : nat) (l : list ascii) :
  ∃ ws, Forall (λ w, w ∈ white_space) ws ∧
        l = concat ws ++ Nat.iter n strip_start l.
Proof.
  revert l. induction n as [|n IH]; intros l; [by exists []|].
  rewrite Nat.iter_succ_r. destruct (IH (strip_start l)) as (ws & Hws & Heq).
  destruct (strip_start_cases l) as [[Hfix _]|(w & Hw & Hl)].
  - exists ws. split; [done|]. by rewrite Hfix in Heq |- *.
  - exists (w :: ws). split; [by constructor|].
    simpl. by rewrite <-app_assoc, <-Heq.
Qed.

Lemma iter_strip_end (n : nat) (l : list ascii) :
  ∃ ws, Forall (λ w, w ∈ white_space) ws ∧
        l = Nat.iter n strip_end l ++ concat ws.
Proof.
  revert l. induction n as [|n IH]; intros l.
  { exists []. by rewrite app_nil_r. }
  rewrite Nat.iter_succ_r. destruct (IH (strip_end l)) as (ws & Hws & Heq).
  destruct (strip_end_cases l) as [[Hfix _]|(w & Hw & Hl)].
  - exists ws. split; [done|]. by rewrite Hfix in Heq |- *.
  - exists (ws ++ [w]).
    split; [apply Forall_app; split; [done|constructor; [done|constructor]]|].
    rewrite concat_app. simpl. by rewrite app_nil_r, app_assoc, <-Heq.
Qed.

(** As many rounds as the sequence has bytes leave no white space. *)
Lemma iter_strip_start_clean (n : nat) (l : list ascii) :
  length l ≤ n → clean_start (Nat.iter n strip_start l).
Proof.
  revert l. induction n as [|n IH]; intros l Hlen.
  { destruct l; [apply clean_start_nil|simpl in Hlen; lia]. }
  rewrite Nat.iter_succ_r.
  destruct (strip_start_cases l) as [[Hfix Hclean]|(w & Hw & Hl)].
  - by rewrite Hfix, iter_fixed.
  - apply IH. pose proof (f_equal length Hl) as HL. rewrite length_app in HL.
    pose proof (white_space_nonempty w Hw). destruct w; [done|]. simpl in HL. lia.
Qed.

Lemma iter_strip_end_clean (n : nat) (l : list ascii) :
  length l ≤ n → clean_end (Nat.iter n strip_end l).
Proof.
  revert l. induction n as [|n IH]; intros l Hlen.
  { destruct l; [apply clean_end_nil|simpl in Hlen; lia]. }
  rewrite Nat.iter_succ_r.
  destruct (strip_end_cases l) as [[Hfix Hclean]|(w & Hw & Hl)].
  - by rewrite Hfix, iter_fixed.
  - apply IH. pose proof (f_equal length Hl) as HL. rewrite length_app in HL.
    pose proof (white_space_nonempty w Hw). destruct w; [done|]. simpl in HL. lia.
Qed.

Lemma trim_start_clean (l : list ascii) : clean_start l → trim_start l = l.
Proof.
  intros Hc. apply iter_fixed.
  destruct (strip_start_cases l) as [[H _]|(w & Hw & Hl)]; [done|].
  destruct (Hc w Hw). by exists (strip_start l).
Qed.

Lemma trim_end_clean (l : list ascii) : clean_end l → trim_end l = l.
Proof.
  intros Hc. apply iter_fixed.
  destruct (strip_end_cases l) as [[H _]|(w & Hw & Hl)]; [done|].
  destruct (Hc w Hw). by exists (strip_end l).
Qed.

(** A run of white space has nothing else at its end. *)
Lemma white_clean_nil (ws ws' : list (list ascii)) (r : list ascii) :
  Forall (λ w, w ∈ white_space) ws →
  Forall (λ w, w ∈ white_space) ws' →
  clean_start r →
  concat ws = concat ws' ++ r → r = [].
Proof.
  intros Hws. revert ws'.
  induction Hws as [|w ws Hw _ IH]; intros ws' Hws' Hr Heq.
  { simpl in Heq. symmetry in Heq. by apply app_eq_nil in Heq as [_ ->]. }
  destruct Hws' as [|w' ws' Hw' Hws']; simpl in Heq.
  { destruct (Hr w Hw). by exists (concat ws). }
  assert (w = w') as <-.
  { destruct (prefix_weak_total w w' (w ++ concat ws)) as [Hp|Hp].
    - by exists (concat ws).
    - exists (concat ws' ++ r). by rewrite Heq, <-app_assoc.
    - by apply white_space_prefix_free.
    - symmetry. by apply white_space_prefix_free. }
  rewrite <-app_assoc in Heq. apply app_inv_head in Heq. by eapply IH.
Qed.

(** The shape of a trimmed sequence of bytes. *)
Lemma trimmed_chars (l : list ascii) :
  (∃ pre post, l = pre ++ trim_end (trim_start l) ++ post ∧ white pre ∧ white post) ∧
  clean_start (trim_end (trim_start l)) ∧
  clean_end (trim_end (trim_start l)).
Proof.
  pose proof (iter_strip_start_clean (length l) l (le_n _)) as Hclean.
  destruct (iter_strip_start (length l) l) as (ws1 & H1 & Hl).
  fold (trim_start l) in Hclean, Hl. set (u := trim_start l) in *.
  destruct (iter_strip_end (length u) u) as (ws2 & H2 & Hu).
  fold (trim_end u) in Hu.
  split_and!.
  - exists (concat ws1), (concat ws2).
    split_and!; [by rewrite <-Hu|by exists ws1|by exists ws2].
  - intros w Hw Hp. apply (Hclean w Hw). rewrite Hu. by apply prefix_app_r.
  - by apply iter_strip_end_clean.
Qed.

Lemma white_app (l1 l2 : list ascii) : white l1 → white l2 → white (l1 ++ l2).
Proof.
  intros (ws1 & H1 & ->) (ws2 & H2 & ->). exists (ws1 ++ ws2).
  split; [by apply Forall_app|]. by rewrite concat_app.
Qed.

Lemma white_trims_to_nil (l : list ascii) : white l → trim_end (trim_start l) = [].
Proof.
  intros (ws & Hws & ->).
  destruct (iter_strip_start (length (concat ws)) (concat ws)) as (ws' & Hws' & Heq).
  pose proof (iter_strip_start_clean (length (concat ws)) (concat ws) (le_n _)) as Hclean.
  fold (trim_start (concat ws)) in Heq, Hclean.
  by rewrite (white_clean_nil ws ws' _ Hws Hws' Hclean Heq).
Qed.

Lemma trim_facts (s : string) :
  (∃ pre post, s = pre +:+ trim s +:+ post ∧ blank pre ∧ blank post) ∧
  starts_with_space (trim s) = false ∧
  ends_with_space (trim s) = false ∧
  (clean_start (chars (trim s)) ∧ clean_end (chars (trim s))) ∧
  (trim s = "" ↔ blank s) ∧
  trim (trim s) = trim s.
Proof.
  destruct (trimmed_chars (chars s)) as ((pre & post & Hs & Hpre & Hpost) & Hcs & Hce).
  rewrite <-chars_trim in Hs, Hcs, Hce.
  split_and!; [| | |done|done| |].
  - exists (String.string_of_list_ascii pre), (String.string_of_list_ascii post).
    unfold blank. rewrite !chars_of_list. split_and!; [|done..].
    apply chars_inj. by rewrite !chars_app, !chars_of_list.
  - destruct (trim s) as [|c rest]; [done|]. simpl in *.
    apply not_true_is_false. intros Hc.
    destruct (Hcs [c] (space_is_white c Hc)). by exists (chars rest).
  - unfold ends_with_space.
    destruct (String.rev (trim s)) as [|c rest] eqn:Hrev; [done|]. simpl.
    apply not_true_is_false. intros Hc.
    destruct (Hce [c] (space_is_white c Hc)). exists (reverse (chars rest)).
    rewrite <-(reverse_involutive (chars (trim s))), <-chars_rev, Hrev.
    simpl. by rewrite reverse_cons.
  - split.
    + intros Hempty. rewrite Hempty in Hs. simpl in Hs. unfold blank.
      rewrite Hs. by apply white_app.
    + intros Hblank. apply chars_inj. rewrite chars_trim. simpl.
      by apply white_trims_to_nil.
  - apply chars_inj. rewrite (chars_trim (trim s)).
    by rewrite (trim_start_clean _ Hcs), (trim_end_clean _ Hce).
Qed.

(** A no-break space and a byte order mark before the text, a line
    separator and a space after it. *)
Example trim_beyond_ascii :
  trim (String "194" (String "160" (String "239" (String "187" (String "191"
         ("3 BHK" +:+ String "226" (String "128" (String "168" " ")))))))) = "3 BHK".
Proof. by vm_compute. Qed.

(** X13. [trim] takes off white space at both ends and nothing else: the
    input is the result between two runs of white-space characters, and no
    white-space character - of ASCII or beyond - begins or ends the result.
    So it is empty exactly on a blank input, and trimming twice is trimming
    once. *)
Theorem trim_spec (s : string) :
  (∃ pre post, s = pre +:+ trim s +:+ post ∧ blank pre ∧ blank post) ∧
  (∀ w, w ∈ white_space →
     ¬ w `prefix_of` chars (trim s) ∧ ¬ w `suffix_of` chars (trim s)) ∧
  starts_with_space (trim s) = false ∧
  ends_with_space (trim s) = false ∧
  (trim s = "" ↔ blank s) ∧
  trim (trim s) = trim s.
Proof.
  destruct (trim_facts s) as (Hd & Hs & He & [Hcs Hce] & Hb & Hi).
  split_and!; try done. intros w Hw. split; [by apply Hcs|by apply Hce].
Qed.

Section ControllerLogs.

Variable t : string → string → string.


End ControllerLogs.

(** ** The render of the log *)

Lemma split_lines_nonempty (s : string) : split_lines s ≠ [].
Proof.
  destruct s as [|c s]; simpl; [done|].
  destruct (Ascii.eqb c newline); [done|]. by destruct (split_lines s).
Qed.

(** X14. Splitting a text into the lines of its bubble loses nothing:
    joining the lines with a line feed gives the text back, there is one
    line more than the text has line feeds (so at least one, even for the
    empty text), and no line contains a line feed. *)
Theorem split_lines_roundtrip (s : string) :
  join_lines (split_lines s) = s ∧
  length (split_lines s) = S (count_newlines s) ∧
  Forall (λ line, count_newlines line = 0) (split_lines s).
Proof.
  induction s as [|c s (IHj & IHl & IHn)]; simpl; [by repeat constructor|].
  destruct (Ascii.eqb c newline) eqn:Hc.
  - apply Ascii.eqb_eq in Hc as ->. simpl. rewrite IHl. split_and!.
    + pose proof (split_lines_nonempty s).
      destruct (split_lines s) as [|l ls]; [done|]. simpl in *. by rewrite IHj.
    + done.
    + by constructor.
  - pose proof (split_lines_nonempty s).
    destruct (split_lines s) as [|l ls]; [done|]. simpl in *.
    apply Forall_cons in IHn as [Hl Hls]. split_and!.
    + destruct ls; simpl in *; by rewrite <-IHj.
    + done.
    + constructor; [|done]. simpl. by rewrite Hc.
Qed.

Section RenderedLog.

Variable t : string → string → string.

Lemma resume_text (p : Pending) (o : FetchOutcome) (w : World) (i : nat) :
  brings_text (Settle i o) = true →
  ∃ m s, msgs (resume t p o w) = msgs w ++ [m] ∧ text m = JStr s.
Proof.
  unfold resume, try_block.
  destruct o as [|status body]; [by eexists _, _|].
  destruct (res_ok status); simpl; [|by eexists _, _].
  destruct body as [| |data]; [by eexists _, _..|].
  destruct (reply data) as [| | | |s| | |] eqn:Hreply; try done. intros _.
  destruct (thrown _); simpl; [by eexists _, _|].
  eexists _, _. split; [done|]. simpl. reflexivity.
Qed.

Lemma step_keeps_texts (e : Event) (w : World) :
  brings_text e = true →
  Forall (λ m, ∃ s, text m = JStr s) (msgs w) →
  Forall (λ m, ∃ s, text m = JStr s) (msgs (step t e w)).
Proof.
  intros He Hw. destruct e as [s| |i o|fresh|path lang fresh]; simpl.
  - done.
  - unfold send. case_match; [done|]. simpl.
    apply Forall_app. split; [done|]. repeat constructor. by eexists.
  - destruct (inflight w !! i) as [p|]; [|done].
    destruct (resume_text p o (setInflight (delete i (inflight w)) w) i He)
      as (m & s & -> & Hm).
    apply Forall_app. split; [done|]. repeat constructor. by eexists.
  - repeat constructor. by eexists.
  - unfold relocate. case_match; [done|]. repeat constructor. by eexists.
Qed.

(** X15. As long as every answer that arrives with a success status and a
    parsed body has a string for its reply, every message in the log has a
    string for its text, so the render can split each of them into lines:
    the greetings, the user's messages and the error message are always
    strings. *)
Theorem log_renders (es : list Event) (path lang id0 id1 : string) :
  Forall (λ e, brings_text e = true) es →
  Forall (λ m, ∃ lines, bubble_lines m = inr lines ∧ lines ≠ [])
         (msgs (run t es (mount t path lang id0 id1))).
Proof.
  intros Hes.
  assert (Hinit : Forall (λ m, ∃ s, text m = JStr s)
                    (msgs (mount t path lang id0 id1))).
  { repeat constructor. by eexists. }
  assert (Hrun : ∀ w, Forall (λ m, ∃ s, text m = JStr s) (msgs w) →
                      Forall (λ m, ∃ s, text m = JStr s) (msgs (run t es w))).
  { induction Hes as [|e es He _ IH]; intros w Hw; [done|].
    cbn [run]. apply IH. by apply step_keeps_texts. }
  eapply Forall_impl; [exact (Hrun _ Hinit)|].
  intros m [s Hs]. unfold bubble_lines. rewrite Hs.
  eexists. split; [done|]. apply split_lines_nonempty.
Qed.

(** X16. An answer with a success status whose actions can all be read -
    none is [null] or [undefined], and no guide has a page whose conversion
    to a property key throws - and whose reply is not a string - it is
    missing, say - still goes into the log as an assistant message, and
    that message is one the render cannot split into lines: [m.text.split]
    throws on it. *)
Theorem non_string_reply_breaks_render
    (w : World) (i : nat) (p : Pending) (status : Z) (data : AgentReply) :
  inflight w !! i = Some p →
  res_ok status = true →
  Forall (λ a, readable a = true) (default [] (ui_actions data)) →
  (∀ s, reply data ≠ JStr s) →
  ∃ m, last (msgs (step t (Settle i (Responded status (JSONData data))) w)) = Some m ∧
       role m = assistant ∧
       bubble_lines m = inl TypeError.
Proof.
  intros Hi Hok Hall Hreply.
  rewrite (step_settle t i p _ w Hi), (resume_success t _ _ _ _ Hok Hall).
  eexists. simpl. rewrite last_snoc. split_and!; [done..|].
  unfold bubble_lines. simpl. destruct (reply data); try done.
  by edestruct Hreply.
Qed.

End RenderedLog.

(** ** From the dispatcher to the pages *)

Lemma dashboard_after_action (pathname : string) (a : JSValue) (query : JSValue) :
  readable a = true →
  Dashboard.after (trace (on_action pathname a)) query =
    if tagged "fill_query" a then prop a "query" else query.
Proof.
  intros Ha. unfold tagged.
  destruct (on_action_cases_by_tag pathname a Ha)
    as [[Ht [->|[to ->]]]|[[Ht ->]|[[Ht ->]|(Hg & Hq & Hs & ->)]]];
    try rewrite Ht; try done.
  by apply strict_eq_str_false in Hq as ->.
Qed.

(** X17. With the dashboard mounted, a list of actions that can all be
    read - none is [null] or [undefined], and no guide has a page whose
    conversion to a property key throws - leaves in its query input the
    query of the last [fill_query] action of the list, whatever that is -
    [undefined] if that action has none - and leaves the input alone when
    the list has no such action. *)
Theorem dashboard_gets_last_query
    (pathname : string) (actions : list JSValue) (query : JSValue) :
  Forall (λ a, readable a = true) actions →
  Dashboard.after (trace (executeUIActions pathname actions)) query =
    from_option (λ a, prop a "query") query
      (last (filter (λ a, tagged "fill_query" a = true) actions)).
Proof.
  intros Hall. revert query.
  induction Hall as [|a rest Ha _ IH]; intros query; [done|].
  destruct (executeUIActions_cons pathname a rest Ha) as [-> _].
  unfold Dashboard.after in *. rewrite foldl_app, IH.
  fold (Dashboard.after (trace (on_action pathname a)) query).
  rewrite (dashboard_after_action _ _ _ Ha), filter_cons.
  destruct (tagged "fill_query" a) eqn:Htag.
  - rewrite decide_True by done. rewrite last_cons.
    by destruct (last (filter _ rest)).
  - by rewrite decide_False.
Qed.

Lemma sell_handler_object (props : list (string * JSValue)) (s : SellProperty.State) :
  SellProperty.handler (JObj props) s =
    (let s' := SellProperty.setForm (list_to_map props ∪ SellProperty.form s) s in
     if truthy (own_property props "description") && (SellProperty.step s <? 3)
     then SellProperty.setStep 3 s' else s',
     None).
Proof. done. Qed.

(** X18. The listener of the sell form, given an object for the event's
    detail, never throws.  It overwrites the fields the object names, keeps
    every other field as it was, and adds the fields the form did not have;
    it moves the wizard to step 3 when the object has a truthy description
    and the wizard was on an earlier step, and leaves the step alone
    otherwise, so the step never goes back.  Given a detail that is [null]
    or [undefined] (an action without [fields]), it changes nothing and
    throws. *)
Theorem sell_form_fill (detail : JSValue) (s : SellProperty.State) :
  let s' := (SellProperty.handler detail s).1 in
  (∀ props, detail = JObj props →
     (SellProperty.handler detail s).2 = None ∧
     (∀ k, SellProperty.form s' !! k =
             match (list_to_map props : gmap string JSValue) !! k with
             | Some v => Some v
             | None => SellProperty.form s !! k
             end) ∧
     SellProperty.step s' =
       (if truthy (own_property props "description") && (SellProperty.step s <? 3)
        then 3 else SellProperty.step s)) ∧
  (nullish detail = true →
     s' = s ∧ (SellProperty.handler detail s).2 = Some TypeError) ∧
  SellProperty.step s ≤ SellProperty.step s' ∧
  SellProperty.images s' = SellProperty.images s.
Proof.
  cbv zeta. split_and!.
  - intros props ->. rewrite sell_handler_object. cbv zeta. split_and!; [done| |].
    + intros k. destruct (_ && _); simpl; rewrite lookup_union;
        by destruct (list_to_map props !! k), (SellProperty.form s !! k).
    + by destruct (_ && _).
  - intros Hnull. destruct detail; try done; simpl.
    all: unfold SellProperty.handler; simpl; rewrite (left_id_L ∅ (∪)).
    all: by destruct s.
  - unfold SellProperty.handler.
    destruct (get (event_detail detail) "description") as [tr [e|d]]; simpl; [lia|].
    destruct (truthy d && (SellProperty.step s <? 3)) eqn:Hjump; simpl; [|lia].
    apply andb_true_iff in Hjump as [_ Hlt%Nat.ltb_lt]. lia.
  - unfold SellProperty.handler.
    destruct (get (event_detail detail) "description") as [tr [e|d]]; simpl; [done|].
    by destruct (truthy d && _).
Qed.

Lemma sell_on_step (e : SellProperty.Event) (s : SellProperty.State) :
  1 ≤ SellProperty.step s ≤ 5 →
  1 ≤ SellProperty.step (SellProperty.on e s) ≤ 5.
Proof.
  intros Hs. destruct e as [| |name value|files|detail]; simpl; try lia.
  unfold SellProperty.handler.
  destruct (get (event_detail detail) "description") as [tr [e|d]]; simpl; [done|].
  destruct (truthy d && _); simpl; lia.
Qed.

(** X19. Whatever the user and the assistant do to the sell form, in any
    order - next, back, typing, choosing files, fill events with any detail -
    the wizard stays on one of its five steps and keeps at most six
    images. *)
Theorem sell_wizard_in_range (es : list SellProperty.Event) :
  let s := foldl (λ s e, SellProperty.on e s) SellProperty.initial es in
  1 ≤ SellProperty.step s ≤ 5 ∧ length (SellProperty.images s) ≤ 6.
Proof.
  cbv zeta.
  assert (Hinv : ∀ s,
    1 ≤ SellProperty.step s ≤ 5 ∧ length (SellProperty.images s) ≤ 6 →
    1 ≤ SellProperty.step (foldl (λ s e, SellProperty.on e s) s es) ≤ 5 ∧
    length (SellProperty.images (foldl (λ s e, SellProperty.on e s) s es)) ≤ 6).
  { induction es as [|e es IH]; intros s [Hs Hi]; [done|].
    simpl. apply IH. split; [by apply sell_on_step|].
    destruct e as [| |name value|files|detail]; simpl; try done.
    - rewrite length_take. lia.
    - unfold SellProperty.handler.
      destruct (get (event_detail detail) "description") as [tr [e|d]]; simpl; [done|].
      by destruct (truthy d && _). }
  apply Hinv. simpl. lia.
Qed.

Lemma sell_handler_form (detail : JSValue) (s : SellProperty.State) :
  SellProperty.form (SellProperty.handler detail s).1 =
    spread (event_detail detail) ∪ SellProperty.form s.
Proof.
  unfold SellProperty.handler.
  destruct (get (event_detail detail) "description") as [tr [e|d]]; simpl; [done|].
  by destruct (truthy d && _).
Qed.




Lemma own_property_truthy (props : list (string * JSValue)) (k : string) :
  truthy (own_property props k) = true →
  (list_to_map props : gmap string JSValue) !! k = Some (own_property props k).
Proof.
  induction props as [|[k' v] props IH]; simpl; [done|].
  case_bool_decide as Hk.
  - subst. by rewrite lookup_insert_eq.
  - by rewrite lookup_insert_ne.
Qed.

Lemma sell_can_submit (s : SellProperty.State) :
  SellProperty.handleSubmit s =
    SellProperty.Post (SellProperty.form s) (SellProperty.images s) ↔
  ∀ k, k ∈ SellProperty.required → truthy (SellProperty.field s k) = true.
Proof.
  unfold SellProperty.handleSubmit.
  destruct (existsb _ _) eqn:Hex.
  - apply existsb_exists in Hex as (k & Hin%list_elem_of_In & Hk).
    split; [done|]. intros H. rewrite (H k Hin) in Hk. done.
  - split; [|done]. intros _ k Hin%list_elem_of_In.
    apply not_false_iff_true. intros Hk.
    assert (existsb (λ k, negb (truthy (SellProperty.field s k)))
              SellProperty.required = true); [|congruence].
    apply existsb_exists. exists k. by rewrite Hk.
Qed.

(** X21. The sell form is posted only when its eight required fields are
    all truthy; otherwise the user is alerted and nothing is posted, as on
    the form as it starts.  A fill event whose object gives all eight a
    truthy value makes the form ready to post, whatever it held before; and
    one that gives a required field a falsy value, such as the empty string,
    blocks the posting even when the user had filled that field in. *)
Theorem sell_submit_after_fill (s : SellProperty.State) (props : list (string * JSValue)) :
  let s' := (SellProperty.handler (JObj props) s).1 in
  SellProperty.handleSubmit SellProperty.initial =
    SellProperty.Alert "Please fill all required fields" ∧
  ((∃ f i, SellProperty.handleSubmit s = SellProperty.Post f i) ↔
   ∀ k, k ∈ SellProperty.required → truthy (SellProperty.field s k) = true) ∧
  ((∀ k, k ∈ SellProperty.required → truthy (own_property props k) = true) →
   SellProperty.handleSubmit s' =
     SellProperty.Post (SellProperty.form s') (SellProperty.images s')) ∧
  (∀ k v, k ∈ SellProperty.required →
     (list_to_map props : gmap string JSValue) !! k = Some v → truthy v = false →
     SellProperty.handleSubmit s' =
       SellProperty.Alert "Please fill all required fields").
Proof.
  cbv zeta.
  assert (Hfield : ∀ k v,
    (list_to_map props : gmap string JSValue) !! k = Some v →
    SellProperty.field (SellProperty.handler (JObj props) s).1 k = v).
  { intros k v Hk. unfold SellProperty.field.
    rewrite sell_handler_form. simpl. rewrite lookup_union, Hk.
    by destruct (SellProperty.form s !! k). }
  pose proof (own_property_truthy props) as Hown.
  split_and!.
  - by vm_compute.
  - split.
    + intros (f & i & Hpost). apply sell_can_submit.
      unfold SellProperty.handleSubmit in *. by destruct (existsb _ _).
    + intros H. apply sell_can_submit in H. eauto.
  - intros Hall. apply sell_can_submit. intros k Hk.
    rewrite (Hfield k _ (Hown k (Hall k Hk))). by apply Hall.
  - intros k v Hk Hv Hfalsy.
    unfold SellProperty.handleSubmit.
    replace (existsb _ _) with true; [done|]. symmetry.
    apply existsb_exists. exists k. split; [by apply list_elem_of_In|].
    by rewrite (Hfield k v Hv), Hfalsy.
Qed.

(** ** The news list of the results page *)

Lemma maxPages_is_ceiling (n : nat) :
  n ≤ 3 * Results.maxPages n ∧ 3 * Results.maxPages n < n + 3.
Proof.
  change (Results.maxPages n) with ((n + 2) / 3).
  pose proof (Nat.div_mod_eq (n + 2) 3).
  pose proof (Nat.mod_upper_bound (n + 2) 3). lia.
Qed.

Lemma intersect_iter (n k : nat) :
  Nat.iter k (Results.intersect n) 1 = Nat.min (1 + k) (Nat.max 1 (Results.maxPages n)).
Proof.
  induction k as [|k IH]; [cbn [Nat.iter nat_rect]; lia|].
  change (Nat.iter (S k) (Results.intersect n) 1)
    with (Results.intersect n (Nat.iter k (Results.intersect n) 1)).
  rewrite IH. unfold Results.intersect.
  destruct n as [|n]; [change (Results.maxPages 0) with 0; lia|].
  destruct (Nat.ltb_spec (Nat.min (1 + k) (Nat.max 1 (Results.maxPages (S n))))
              (Results.maxPages (S n))); lia.
Qed.

(** X22. The news list shows three items more at each intersection and
    stops at the end of the list.  After [k] intersections the page number
    is [1 + k], capped at the number of pages, [ceil(n / 3)]; what is shown
    is the first [min n (3 * page)] items of the list; the page number never
    leaves the range from 1 to the number of pages (1 for an empty list);
    and from [ceil(n / 3) - 1] intersections on, the whole list is shown
    and further intersections change nothing. *)
Theorem news_pagination {A} (news : list A) (k : nat) :
  let n := length news in
  let page := Nat.iter k (Results.intersect n) 1 in
  page = Nat.min (1 + k) (Nat.max 1 (Results.maxPages n)) ∧
  1 ≤ page ≤ Nat.max 1 (Results.maxPages n) ∧
  Results.visibleNews news page `prefix_of` news ∧
  length (Results.visibleNews news page) = Nat.min n (3 * page) ∧
  (Results.maxPages n - 1 ≤ k →
     Results.visibleNews news page = news ∧
     Results.intersect n page = page).
Proof.
  cbv zeta. rewrite intersect_iter.
  set (n := length news). set (m := Results.maxPages n).
  destruct (maxPages_is_ceiling n) as [Hle Hlt]. fold m in Hle, Hlt.
  unfold Results.visibleNews, Results.NEWS_PAGE_SIZE.
  split_and!; try lia.
  - apply prefix_take.
  - rewrite length_take. fold n. lia.
  - intros Hk. split.
    + apply take_ge. fold n. lia.
    + unfold Results.intersect. fold m. destruct n; [done|].
      destruct (Nat.ltb_spec (Nat.min (1 + k) (Nat.max 1 m)) m); lia.
Qed.

(** ** The filters of the buy page *)

Section BuyFilters.

Variable price_at_least : JSValue → string → bool.
Variable price_at_most : JSValue → string → bool.

Abbreviation applyFilters := (BuyProperty.applyFilters price_at_least price_at_most).
Abbreviation passes := (BuyProperty.passes price_at_least price_at_most).

Lemma narrow_filter (f : string) (keep : JSValue → bool) (temp : list JSValue) :
  BuyProperty.narrow f keep temp =
    List.filter (λ p, negb (truthy (JStr f)) || keep p) temp.
Proof.
  unfold BuyProperty.narrow. destruct (truthy (JStr f)); simpl; [done|].
  induction temp as [|p temp IH]; simpl; [done|]. by rewrite <-IH.
Qed.

Lemma filter_filter_and {A} (f g : A → bool) (l : list A) :
  List.filter g (List.filter f l) = List.filter (λ x, f x && g x) l.
Proof.
  induction l as [|x l IH]; simpl; [done|].
  destruct (f x); simpl; [|done]. destruct (g x); by rewrite IH.
Qed.

Lemma applyFilters_filter (rows : list JSValue) (city locality min max : string) :
  applyFilters rows city locality min max =
    List.filter (passes city locality min max) rows.
Proof.
  unfold BuyProperty.applyFilters. cbv zeta.
  rewrite !narrow_filter, !filter_filter_and.
  apply filter_ext. intros p. unfold BuyProperty.passes.
  by rewrite !andb_assoc.
Qed.

Lemma List_filter_sublist {A} (f : A → bool) (l : list A) :
  List.filter f l `sublist_of` l.
Proof.
  induction l as [|x l IH]; simpl; [done|].
  destruct (f x); by constructor.
Qed.

(** X23. Applying the filters never invents, repeats or reorders a listing:
    the result is the rows, in their order, that pass every filter that is
    set - the city and the locality by strict equality, the two prices by
    the numeric comparisons.  With no filter set it is all the rows, and
    setting one more filter can only take rows away. *)
Theorem applyFilters_selects
    (rows : list JSValue) (city locality min max : string) :
  Forall (λ p, nullish p = false) rows →
  applyFilters rows city locality min max `sublist_of` rows ∧
  (∀ p, p ∈ applyFilters rows city locality min max ↔
        p ∈ rows ∧ passes city locality min max p = true) ∧
  applyFilters rows "" "" "" "" = rows ∧
  applyFilters rows city locality min max
    `sublist_of` applyFilters rows city "" "" "".
Proof.
  intros _. rewrite !applyFilters_filter. split_and!.
  - apply List_filter_sublist.
  - intros p. rewrite list_elem_of_In, filter_In, <-list_elem_of_In. done.
  - induction rows as [|p rows IH]; simpl; [done|]. by rewrite IH.
  - assert (Hnarrow : List.filter (passes city locality min max) rows =
      List.filter (passes city locality min max)
        (List.filter (passes city "" "" "") rows)).
    { rewrite filter_filter_and. induction rows as [|p rows IH]; simpl; [done|].
      rewrite <-IH. unfold BuyProperty.passes. simpl.
      by destruct (negb _ || BuyProperty.is_string city _). }
    rewrite Hnarrow. apply List_filter_sublist.
Qed.

End BuyFilters.

Lemma same_value_zero_eq (a b : JSValue) :
  BuyProperty.same_value_zero a b = true → a = b.
Proof.
  destruct a, b; simpl; try done.
  - by intros ->%Bool.eqb_prop.
  - by intros ->%Z.eqb_eq.
  - by intros ->%String.eqb_eq.
Qed.

Lemma unique_from (seen values : list JSValue) :
  let step seen v :=
    if existsb (BuyProperty.same_value_zero v) seen then seen else seen ++ [v] in
  (∀ v, v ∈ foldl step seen values ↔ v ∈ seen ∨ v ∈ values) ∧
  ((∀ i j x y, i ≠ j → seen !! i = Some x → seen !! j = Some y →
      BuyProperty.same_value_zero x y = false) →
   ∀ i j x y, i ≠ j →
     foldl step seen values !! i = Some x → foldl step seen values !! j = Some y →
     BuyProperty.same_value_zero x y = false).
Proof.
  cbv zeta. revert seen.
  induction values as [|v values IH]; intros seen.
  { split; [|done]. intros v. rewrite elem_of_nil. tauto. }
  simpl. destruct (IH (if existsb (BuyProperty.same_value_zero v) seen
                       then seen else seen ++ [v])) as [IHm IHd].
  destruct (existsb (BuyProperty.same_value_zero v) seen) eqn:Hseen.
  - split; [|exact IHd].
    intros u. rewrite IHm, elem_of_cons.
    apply existsb_exists in Hseen as (x & Hx%list_elem_of_In & Heq).
    apply same_value_zero_eq in Heq as ->.
    split; [tauto|]. intros [?|[->|?]]; auto.
  - split.
    { intros u. rewrite IHm, elem_of_app, list_elem_of_singleton, elem_of_cons. tauto. }
    intros Hd. apply IHd. intros i j x y Hij Hi Hj.
    assert (Hnew : ∀ k z, seen !! k = Some z →
              BuyProperty.same_value_zero v z = false ∧
              BuyProperty.same_value_zero z v = false).
    { intros k z Hz.
      assert (Hvz : BuyProperty.same_value_zero v z = false).
      { apply not_true_is_false. intros Heq.
        assert (existsb (BuyProperty.same_value_zero v) seen = true); [|congruence].
        apply existsb_exists. exists z. split; [|done].
        apply list_elem_of_In. by eapply list_elem_of_lookup_2. }
      split; [done|]. apply not_true_is_false. intros Heq.
      pose proof (same_value_zero_eq _ _ Heq) as ->. congruence. }
    destruct (decide (i < length seen)) as [Hi'|Hi'],
             (decide (j < length seen)) as [Hj'|Hj'].
    + rewrite lookup_app_l in Hi, Hj by done. by eapply Hd.
    + rewrite lookup_app_l in Hi by done.
      rewrite lookup_app_r in Hj by lia.
      apply list_lookup_singleton_Some in Hj as [_ <-]. by eapply Hnew.
    + rewrite lookup_app_l in Hj by done.
      rewrite lookup_app_r in Hi by lia.
      apply list_lookup_singleton_Some in Hi as [_ <-]. by eapply Hnew.
    + rewrite lookup_app_r in Hi, Hj by lia.
      apply list_lookup_singleton_Some in Hi as [Hi _].
      apply list_lookup_singleton_Some in Hj as [Hj _]. lia.
Qed.

(** X24. The two dropdowns of the buy page offer exactly what the rows
    hold, each value once.  A value is offered as a city exactly when some
    row has it for its location, and as a locality exactly when some row of
    the selected city has it for its sublocality; no two entries of a
    dropdown are the same value; and without a selected city no locality is
    offered. *)
Theorem buy_dropdowns (rows : list JSValue) (city : string) :
  Forall (λ p, nullish p = false) rows →
  (∀ v, v ∈ BuyProperty.cities_of rows ↔ ∃ p, p ∈ rows ∧ prop p "location" = v) ∧
  (city ≠ "" →
     ∀ v, v ∈ BuyProperty.localities_of rows city ↔
          ∃ p, p ∈ rows ∧ prop p "location" = JStr city ∧ prop p "sublocality" = v) ∧
  BuyProperty.localities_of rows "" = [] ∧
  (∀ i j x y, i ≠ j →
     BuyProperty.localities_of rows city !! i = Some x →
     BuyProperty.localities_of rows city !! j = Some y →
     BuyProperty.same_value_zero x y = false) ∧
  (∀ i j x y, i ≠ j →
     BuyProperty.cities_of rows !! i = Some x →
     BuyProperty.cities_of rows !! j = Some y →
     BuyProperty.same_value_zero x y = false).
Proof.
  intros _. split_and!.
  - intros v. unfold BuyProperty.cities_of, BuyProperty.unique.
    destruct (unique_from [] ((λ p, prop p "location") <$> rows)) as [-> _].
    rewrite elem_of_nil, list_elem_of_fmap. split.
    + intros [[]|(p & -> & Hp)]. eauto.
    + intros (p & Hp & <-). right. eauto.
  - intros Hcity v. unfold BuyProperty.localities_of, BuyProperty.unique.
    simpl. destruct (String.eqb_spec city ""); [done|]. simpl.
    destruct (unique_from []
      ((λ p, prop p "sublocality")
         <$> List.filter (λ p, BuyProperty.is_string city (prop p "location")) rows))
      as [-> _].
    rewrite elem_of_nil, list_elem_of_fmap. split.
    + intros [[]|(p & -> & Hp)].
      apply list_elem_of_In, filter_In in Hp as [Hp%list_elem_of_In Hc].
      apply strict_eq_str_true in Hc. eauto.
    + intros (p & Hp & Hc & <-). right. exists p. split; [done|].
      apply list_elem_of_In, filter_In. split; [by apply list_elem_of_In|].
      by apply strict_eq_str_true.
  - done.
  - unfold BuyProperty.localities_of.
    destruct (truthy (JStr city)); [|by intros i j x y _ Hi; rewrite lookup_nil in Hi].
    apply unique_from. by intros i j x y _ Hi; rewrite lookup_nil in Hi.
  - apply unique_from. by intros i j x y _ Hi; rewrite lookup_nil in Hi.
Qed.

Lemma localities_of_elem (rows : list JSValue) (city : string) (v : JSValue) :
  v ∈ BuyProperty.localities_of rows city →
  ∃ p, p ∈ rows ∧ prop p "location" = JStr city ∧ prop p "sublocality" = v.
Proof.
  unfold BuyProperty.localities_of, BuyProperty.unique.
  destruct (truthy (JStr city)); [|by intros ?%elem_of_nil].
  destruct (unique_from []
    ((λ p, prop p "sublocality")
       <$> List.filter (λ p, BuyProperty.is_string city (prop p "location")) rows))
    as [-> _].
  rewrite elem_of_nil, list_elem_of_fmap. intros [[]|(p & -> & Hp)].
  apply list_elem_of_In, filter_In in Hp as [Hp%list_elem_of_In Hc].
  apply strict_eq_str_true in Hc. eauto.
Qed.

Lemma cities_of_elem (rows : list JSValue) (v : JSValue) :
  v ∈ BuyProperty.cities_of rows → ∃ p, p ∈ rows ∧ prop p "location" = v.
Proof.
  unfold BuyProperty.cities_of, BuyProperty.unique.
  destruct (unique_from [] ((λ p, prop p "location") <$> rows)) as [-> _].
  rewrite elem_of_nil, list_elem_of_fmap. intros [[]|(p & -> & Hp)]. eauto.
Qed.

(** X25. A choice that the dropdowns offer and that is a string, not the
    empty one, has listings.  For such a city, and for such a locality
    offered once that city is selected, applying the filters with no price
    set shows at least one listing, and every listing shown has that city
    for its location and that locality for its sublocality.  (A row whose
    location is not a string puts another kind of value into the dropdown;
    nothing is said of those.) *)
Theorem offered_choice_has_listings
    (price_at_least price_at_most : JSValue → string → bool)
    (rows : list JSValue) (city locality : string) :
  Forall (λ p, nullish p = false) rows →
  city ≠ "" →
  JStr city ∈ BuyProperty.cities_of rows →
  BuyProperty.applyFilters price_at_least price_at_most rows city "" "" "" ≠ [] ∧
  (locality ≠ "" →
   JStr locality ∈ BuyProperty.localities_of rows city →
   BuyProperty.applyFilters price_at_least price_at_most rows city locality "" "" ≠ [] ∧
   ∀ p, p ∈ BuyProperty.applyFilters price_at_least price_at_most
              rows city locality "" "" →
        prop p "location" = JStr city ∧ prop p "sublocality" = JStr locality).
Proof.
  intros _ Hcity Hoffered.
  assert (Hc : truthy (JStr city) = true).
  { simpl. by destruct (String.eqb_spec city ""). }
  assert (Hin : ∀ l p, p ∈ BuyProperty.applyFilters price_at_least price_at_most
                             rows city l "" "" ↔
                       p ∈ rows ∧ BuyProperty.passes price_at_least price_at_most
                                    city l "" "" p = true).
  { intros l p. rewrite applyFilters_filter.
    by rewrite list_elem_of_In, filter_In, <-list_elem_of_In. }
  split.
  - destruct (cities_of_elem rows _ Hoffered) as (p & Hp & Hloc).
    intros Hnil. assert (Hmem : p ∈ BuyProperty.applyFilters price_at_least
                                  price_at_most rows city "" "" "").
    { apply Hin. split; [done|]. unfold BuyProperty.passes, BuyProperty.is_string.
      rewrite Hloc, Hc. simpl. by rewrite bool_decide_eq_true_2. }
    rewrite Hnil in Hmem. by apply elem_of_nil in Hmem.
  - intros Hlocality Hoff.
    assert (Hl : truthy (JStr locality) = true).
    { simpl. by destruct (String.eqb_spec locality ""). }
    split.
    + destruct (localities_of_elem rows city _ Hoff) as (p & Hp & Hloc & Hsub).
      intros Hnil. assert (Hmem : p ∈ BuyProperty.applyFilters price_at_least
                                    price_at_most rows city locality "" "").
      { apply Hin. split; [done|]. unfold BuyProperty.passes, BuyProperty.is_string.
        rewrite Hloc, Hsub, Hc, Hl. simpl. by rewrite !bool_decide_eq_true_2. }
      rewrite Hnil in Hmem. by apply elem_of_nil in Hmem.
    + intros p [_ Hpass]%Hin. unfold BuyProperty.passes in Hpass.
      rewrite Hc, Hl in Hpass. simpl in Hpass.
      rewrite !andb_true_r in Hpass.
      apply andb_true_iff in Hpass as [H1 H2].
      by apply strict_eq_str_true in H1, H2.
Qed.

(** ** More on the turns of the assistant *)

Section ControllerTurns.

Variable t : string → string → string.

(** X26. An answer with a success status whose action list has a [null]
    in it is half applied: its thread identifier is adopted and the actions
    before the [null] are dispatched, but the reply is dropped - the log
    gets the error message instead - and the actions after the [null] are
    not run.  The component is idle afterwards. *)
Theorem unreadable_action_half_applies
    (w : World) (i : nat) (p : Pending) (status : Z) (data : AgentReply)
    (before after : list JSValue) (a : JSValue) :
  inflight w !! i = Some p →
  res_ok status = true →
  ui_actions data = Some (before ++ a :: after) →
  Forall (λ a, nullish a = false) before →
  nullish a = true →
  let w' := step t (Settle i (Responded status (JSONData data))) w in
  threadId w' = thread_id data ∧
  effects w' = effects w ++ trace (executeUIActions (seen_pathname p) before) ∧
  msgs w' = msgs w ++ [error_message t (page_context_language (turn p))] ∧
  loading w' = false.
Proof.
  intros Hi Hok Hact Hbefore Ha. cbv zeta.
  rewrite (step_settle t i p _ w Hi). unfold resume, try_block.
  rewrite Hok. cbn [negb]. rewrite guarded_run, Hact.
  change (default [] (Some (before ++ a :: after))) with (before ++ a :: after).
  rewrite (dispatcher_stops_at_null_aux _ _ _ _ Hbefore Ha). done.
Qed.

Lemma send_pathname (w : World) : pathname (send w) = pathname w.
Proof. unfold send. by case_match. Qed.

Lemma step_pathname (e : Event) (w : World) :
  keeps_pathname e → is_pathname (pathname w) → is_pathname (pathname (step t e w)).
Proof.
  intros He Hw. destruct e as [s| |i o|fresh|path lang fresh]; simpl; try done.
  - by rewrite send_pathname.
  - destruct (inflight w !! i) as [p|]; [|done].
    by destruct (resume_appends t p o (setInflight (delete i (inflight w)) w))
      as (_ & _ & -> & _).
  - unfold relocate. by case_match.
Qed.

Lemma resolve_is_page (path : string) :
  is_pathname path → ∃ p : PageContext, resolve path = JStr (page_name p).
Proof.
  intros Hpath. destruct (listed_paths_dec path) as [Hin|Hout].
  - destruct (route_resolve_roundtrip _ Hin) as (p & Hp & _). by exists p.
  - exists home. by apply resolve_unlisted.
Qed.

(** X27. As long as the router supplies pathnames (strings with a leading
    slash), every request the component posts names one of the seven pages
    as its [current_page]: the page the pathname resolved to when the
    message was submitted. *)
Theorem requests_name_a_page
    (es : list Event) (path lang id0 id1 : string) :
  is_pathname path →
  Forall keeps_pathname es →
  ∀ turn, turn ∈ transport (run t es (mount t path lang id0 id1)) →
    ∃ p : PageContext, current_page turn = JStr (page_name p).
Proof.
  intros Hpath Hes.
  assert (Hrun : ∀ w,
    is_pathname (pathname w) →
    (∀ turn, turn ∈ transport w → ∃ p : PageContext, current_page turn = JStr (page_name p)) →
    ∀ turn, turn ∈ transport (run t es w) →
      ∃ p : PageContext, current_page turn = JStr (page_name p)).
  { induction Hes as [|e es He _ IH]; intros w Hw Htr; [done|].
    cbn [run]. apply IH; [by apply step_pathname|].
    destruct e as [s| |i o|fresh|path' lang' fresh]; simpl.
    - done.
    - unfold send. case_match; [done|]. simpl.
      intros turn [Hin| ->%list_elem_of_singleton]%elem_of_app; [by apply Htr|].
      simpl. by apply resolve_is_page.
    - destruct (inflight w !! i) as [p|]; [|done].
      by destruct (resume_shape t p o (setInflight (delete i (inflight w)) w))
        as (_ & _ & ->).
    - done.
    - unfold relocate. by case_match. }
  apply Hrun; [done|]. by intros turn ?%elem_of_nil.
Qed.

End ControllerTurns.

(** * The further properties on the sample data *)

Lemma login_unlisted : "/login" ∉ listed_paths.
Proof.
  unfold listed_paths. rewrite !elem_of_cons, elem_of_nil.
  intros H. destruct_or!; discriminate || done.
Defined.

Lemma about_listed : "/about" ∈ listed_paths.
Proof. unfold listed_paths. rewrite !elem_of_cons. tauto. Defined.

Lemma route_resolve_fixes_listed_witness :
  is_pathname "/login" ∧ ("/login" ∉ listed_paths) ∧
  route (resolve "/login") = inr (JStr "/") ∧
  is_pathname "/about" ∧ ("/about" ∈ listed_paths) ∧
  route (resolve "/about") = inr (JStr "/about").
Proof.
  refine (conj eq_refl (conj login_unlisted (conj _ (conj eq_refl (conj about_listed _))))).
  - exact (proj2 (route_resolve_fixes_listed "/login" eq_refl) login_unlisted).
  - exact (proj2 (proj1 (route_resolve_fixes_listed "/about" eq_refl)) about_listed).
Defined.

Lemma guide_to_resolved_page_witness :
  is_pathname "/login" ∧
  trace (executeUIActions "/login"
           [JObj [("ui_action", JStr "guide"); ("page", resolve "/login")]]) =
    [Navigate (JStr "/")].
Proof.
  refine (conj eq_refl _).
  exact (guide_to_resolved_page "/login" eq_refl).
Defined.

Lemma sample_navigation :
  Navigate (JStr "/about") ∈ trace (executeUIActions "/dashboard" sample_actions).
Proof. apply list_elem_of_In. vm_compute. tauto. Defined.

Lemma navigation_targets_witness :
  Navigate (JStr "/about") ∈ trace (executeUIActions "/dashboard" sample_actions) ∧
  JStr "/about" ≠ JStr "/dashboard".
Proof.
  refine (conj sample_navigation _).
  exact (proj1 (navigation_targets "/dashboard" sample_actions (JStr "/about")
                  sample_navigation)).
Defined.

Lemma dispatcher_stops_at_null_witness :
  Forall (λ a, nullish a = false) [fill_query_action "first"] ∧
  nullish JNull = true ∧
  executeUIActions "/dashboard"
    ([fill_query_action "first"] ++ JNull :: [fill_query_action "second"]) =
    ([DispatchEvent "assistant-fill-query" (JObj [("query", JStr "first")])],
     inl TypeError).
Proof.
  assert (H : Forall (λ a, nullish a = false) [fill_query_action "first"])
    by by repeat constructor.
  refine (conj H (conj eq_refl _)).
  exact (dispatcher_stops_at_null "/dashboard" [fill_query_action "first"]
           [fill_query_action "second"] JNull H eq_refl).
Defined.

Lemma settle_appends_one_message_witness :
  reachable sample_t sample_sending ∧
  inflight sample_sending !! 0 = Some sample_request ∧
  loading (step sample_t (Settle 0 (Responded 200 JSONNull)) sample_sending) = false ∧
  inflight (step sample_t (Settle 0 (Responded 200 JSONNull)) sample_sending) = [].
Proof.
  refine (conj sample_sending_reachable (conj eq_refl _)).
  destruct (settle_appends_one_message sample_t sample_sending 0 sample_request
              (Responded 200 JSONNull) sample_sending_reachable eq_refl)
    as (_ & Hld & Hfl & _).
  exact (conj Hld Hfl).
Defined.

Lemma log_starts_with_greeting_witness :
  reachable sample_t sample_sending ∧
  ∃ lang page rest, msgs sample_sending = greeting sample_t lang page :: rest.
Proof.
  refine (conj sample_sending_reachable _).
  exact (log_starts_with_greeting sample_t sample_sending sample_sending_reachable).
Defined.


Lemma reset_keeps_turn_in_flight_witness :
  reachable sample_t sample_sending ∧
  inflight sample_sending ≠ [] ∧
  loading (step sample_t (Reset "T2") sample_sending) = true ∧
  inflight (step sample_t (Reset "T2") sample_sending) = inflight sample_sending.
Proof.
  assert (Hbusy : inflight sample_sending ≠ []) by by vm_compute.
  refine (conj sample_sending_reachable (conj Hbusy _)).
  destruct (reset_keeps_turn_in_flight sample_t sample_sending "T2"
              sample_sending_reachable Hbusy) as (Hld & _ & Hfl & _).
  exact (conj Hld Hfl).
Defined.

Lemma relocate_within_page_witness :
  resolve "/register" = page sample_login ∧
  "en" = language sample_login ∧
  msgs (step sample_t (Relocate "/register" "en" "T9") sample_login) = msgs sample_login ∧
  threadId (step sample_t (Relocate "/register" "en" "T9") sample_login) = JStr "T1" ∧
  pathname (step sample_t (Relocate "/register" "en" "T9") sample_login) = "/register".
Proof.
  refine (conj eq_refl (conj eq_refl _)).
  destruct (relocate_within_page sample_t sample_login "/register" "en" "T9"
              eq_refl eq_refl) as (Hm & Hth & Hp & _).
  exact (conj Hm (conj Hth Hp)).
Defined.

Lemma sample_events_bring_text : Forall (λ e, brings_text e = true) sample_events.
Proof. by repeat constructor. Defined.

Lemma log_renders_witness :
  Forall (λ e, brings_text e = true) sample_events ∧
  Forall (λ m, ∃ lines, bubble_lines m = inr lines ∧ lines ≠ [])
         (msgs (run sample_t sample_events (mount sample_t "/dashboard" "en" "T0" "T1"))).
Proof.
  refine (conj sample_events_bring_text _).
  exact (log_renders sample_t sample_events "/dashboard" "en" "T0" "T1"
           sample_events_bring_text).
Defined.

Lemma non_string_reply_breaks_render_witness :
  inflight sample_sending !! 0 = Some sample_request ∧
  res_ok 200 = true ∧
  Forall (λ a, readable a = true) (default [] (ui_actions sample_silent_reply)) ∧
  (∀ s, reply sample_silent_reply ≠ JStr s) ∧
  ∃ m, last (msgs (step sample_t (Settle 0 (Responded 200 (JSONData sample_silent_reply)))
                     sample_sending)) = Some m ∧
       role m = assistant ∧ bubble_lines m = inl TypeError.
Proof.
  assert (H1 : Forall (λ a, readable a = true)
                 (default [] (ui_actions sample_silent_reply))) by constructor.
  assert (H2 : ∀ s, reply sample_silent_reply ≠ JStr s) by discriminate.
  refine (conj sample_request_in_flight (conj eq_refl (conj H1 (conj H2 _)))).
  exact (non_string_reply_breaks_render sample_t sample_sending 0 sample_request 200
           sample_silent_reply sample_request_in_flight eq_refl H1 H2).
Defined.

Lemma sample_queries_readable : Forall (λ a, readable a = true) sample_queries.
Proof. by repeat constructor. Defined.

Lemma dashboard_gets_last_query_witness :
  Forall (λ a, readable a = true) sample_queries ∧
  Dashboard.after (trace (executeUIActions "/dashboard" sample_queries)) (JStr "old") =
    JStr "2 BHK in Kharadi".
Proof.
  refine (conj sample_queries_readable _).
  exact (dashboard_gets_last_query "/dashboard" sample_queries (JStr "old")
           sample_queries_readable).
Defined.



Lemma sample_rows_objects : Forall (λ p, nullish p = false) sample_rows.
Proof. by repeat constructor. Defined.

Lemma applyFilters_selects_witness :
  Forall (λ p, nullish p = false) sample_rows ∧
  BuyProperty.applyFilters (λ _ _, true) (λ _ _, true) sample_rows "" "" "" "" =
    sample_rows.
Proof.
  refine (conj sample_rows_objects _).
  exact (proj1 (proj2 (proj2
    (applyFilters_selects (λ _ _, true) (λ _ _, true) sample_rows "Pune" "Kharadi" "" ""
       sample_rows_objects)))).
Defined.

Lemma buy_dropdowns_witness :
  Forall (λ p, nullish p = false) sample_rows ∧
  BuyProperty.localities_of sample_rows "" = [].
Proof.
  refine (conj sample_rows_objects _).
  exact (proj1 (proj2 (proj2 (buy_dropdowns sample_rows "Pune" sample_rows_objects)))).
Defined.

Lemma pune_offered : JStr "Pune" ∈ BuyProperty.cities_of sample_rows.
Proof. apply list_elem_of_In. vm_compute. tauto. Defined.

Lemma offered_choice_has_listings_witness :
  Forall (λ p, nullish p = false) sample_rows ∧
  "Pune" ≠ "" ∧
  JStr "Pune" ∈ BuyProperty.cities_of sample_rows ∧
  BuyProperty.applyFilters (λ _ _, true) (λ _ _, true) sample_rows "Pune" "" "" "" ≠ [].
Proof.
  assert (Hcity : "Pune" ≠ "") by discriminate.
  refine (conj sample_rows_objects (conj Hcity (conj pune_offered _))).
  exact (proj1 (offered_choice_has_listings (λ _ _, true) (λ _ _, true)
                  sample_rows "Pune" "Kharadi" sample_rows_objects Hcity pune_offered)).
Defined.

Lemma unreadable_action_half_applies_witness :
  inflight sample_sending !! 0 = Some sample_request ∧
  res_ok 200 = true ∧
  ui_actions sample_broken_reply =
    Some ([fill_query_action "first"] ++ JNull :: [fill_query_action "second"]) ∧
  Forall (λ a, nullish a = false) [fill_query_action "first"] ∧
  nullish JNull = true ∧
  threadId (step sample_t (Settle 0 (Responded 200 (JSONData sample_broken_reply)))
              sample_sending) = JStr "t2".
Proof.
  assert (H : Forall (λ a, nullish a = false) [fill_query_action "first"])
    by by repeat constructor.
  refine (conj eq_refl (conj eq_refl (conj eq_refl (conj H (conj eq_refl _))))).
  exact (proj1 (unreadable_action_half_applies sample_t sample_sending 0 sample_request
                  200 sample_broken_reply [fill_query_action "first"]
                  [fill_query_action "second"] JNull
                  eq_refl eq_refl eq_refl H eq_refl)).
Defined.

Lemma sample_events_keep_pathname : Forall keeps_pathname sample_events.
Proof. by repeat constructor. Defined.

Lemma requests_name_a_page_witness :
  is_pathname "/dashboard" ∧
  Forall keeps_pathname sample_events ∧
  ∀ turn, turn ∈ transport (run sample_t sample_events
                              (mount sample_t "/dashboard" "en" "T0" "T1")) →
    ∃ p : PageContext, current_page turn = JStr (page_name p).
Proof.
  refine (conj eq_refl (conj sample_events_keep_pathname _)).
  exact (requests_name_a_page sample_t sample_events "/dashboard" "en" "T0" "T1"
           eq_refl sample_events_keep_pathname).
Defined.
